(** * XrayR limiter: device quota, rate buckets and the online reconciler

    A shallow embedding of [common/limiter/limiter.go].

    - Go's [uint64] is [N]; Go's [int] and [int64] are [Z] (the one
      subtraction that can leave the 64-bit range is wrapped explicitly).
    - A [sync.Map] is an association list whose order is the order in which
      [Range] visits the entries.  Go leaves that order unspecified, so a
      statement quantified over the list covers every order.
    - The built-in maps ([map[int]int64], [map[int]string],
      [map[string]int]) are [gmap]s: only lookup, insert and [len] are used
      on them.
    - A [*rate.Limiter] is the pair of the limit and the burst it was last
      given.  Every key of the bucket table owns the limiter it stores, so
      the table holds the limiter values themselves. *)

From stdpp Require Import base numbers list option strings gmap pretty.

Local Open Scope string_scope.
Local Open Scope Z_scope.

(** ** Machine integers *)

(** Two's complement reduction of a mathematical integer to [int64]. *)
Definition wrap64 (z : Z) : Z := (z + 2 ^ 63) `mod` 2 ^ 64 - 2 ^ 63.

(** The conversion [int(x)] of a [uint64]. *)
Definition int_of_uint64 (n : N) : Z := wrap64 (Z.of_N n).

(** [len] of a slice. *)
Definition len {A} (l : list A) : Z := Z.of_nat (length l).

(** ** [sync.Map] *)

Section SyncMap.
Context {K V : Type} `{EqDecision K}.

Definition SyncMap : Type := list (K * V).

Fixpoint Load (k : K) (m : SyncMap) : option V :=
  match m with
  | [] => None
  | (k', v) :: m' => if decide (k' = k) then Some v else Load k m'
  end.

(** An existing entry is overwritten where it stands, a new one goes last. *)
Fixpoint Store (k : K) (v : V) (m : SyncMap) : SyncMap :=
  match m with
  | [] => [(k, v)]
  | (k', v') :: m' =>
      if decide (k' = k) then (k, v) :: m' else (k', v') :: Store k v m'
  end.

Fixpoint Delete (k : K) (m : SyncMap) : SyncMap :=
  match m with
  | [] => []
  | (k', v') :: m' =>
      if decide (k' = k) then Delete k m' else (k', v') :: Delete k m'
  end.

(** [LoadOrStore] gives the value now in the map, whether it was loaded,
    and the map. *)
Definition LoadOrStore (k : K) (v : V) (m : SyncMap) : V * bool * SyncMap :=
  match Load k m with
  | Some a => (a, true, m)
  | None => (v, false, Store k v m)
  end.

Definition keys (m : SyncMap) : list K := m.*1.
End SyncMap.

Arguments SyncMap : clear implicits.

(** ** Data model *)

Module api.
(** The fields of [api.UserInfo] the limiter reads. *)
Record UserInfo := {
  UID : Z;
  Email : string;
  SpeedLimit : N;
  DeviceLimit : Z
}.

Record OnlineUser := { OnlineUID : Z; IP : string }.
End api.

Record UserInfo := {
  UID : Z;
  SpeedLimit : N;
  DeviceLimit : Z
}.

(** [rate.Limiter]: the limit (the [uint64] that [rate.Limit] converts) and
    the burst. *)
Record RateLimiter := {
  limit : N;
  burst : Z
}.

(** [rate.NewLimiter(rate.Limit(limit), int(limit))]. *)
Definition NewLimiter (lim : N) : RateLimiter :=
  {| limit := lim; burst := int_of_uint64 lim |}.

(** The fields of [GlobalDeviceLimitConfig] that decide behaviour; the Redis
    connection parameters are left out. *)
Record GlobalDeviceLimitConfig := {
  Enable : bool;
  Timeout : Z;
  Expiry : Z
}.

(** The chained cache behind [marshaler.Marshaler]: both tiers are built
    with the expiration [Expiry] seconds, which is what a [Set] without
    options uses. *)
Record Marshaler := {
  expiration : Z
}.

(** [GlobalLimit.config] and [GlobalLimit.globalOnlineIP] are assigned
    together by [AddInboundLimiter] and by nothing else, so the two pointers
    are nil together: the field is one option of the pair. *)
Record InboundInfo := {
  Tag : string;
  NodeSpeedLimit : N;
  UserInfoMap : SyncMap string UserInfo;           (* field UserInfo *)
  BucketHub : SyncMap string RateLimiter;
  UserOnlineIP : SyncMap string (SyncMap string Z);
  OnlineDevice : SyncMap Z string;
  ipAllowedMap : SyncMap string Z;
  Otraffic : SyncMap Z Z;
  GlobalLimit : option (GlobalDeviceLimitConfig * Marshaler)
}.

(** [Limiter.InboundInfo], keyed by tag. *)
Record Limiter := {
  Inbounds : SyncMap string InboundInfo
}.

Definition New : Limiter := {| Inbounds := [] |}.

(** ** Effective rate *)

Definition determineRate (nodeLimit userLimit : N) : N :=
  if ((nodeLimit =? 0) || (userLimit =? 0))%N then
    if (userLimit <? nodeLimit)%N then nodeLimit
    else if (nodeLimit <? userLimit)%N then userLimit
    else 0%N
  else
    if (userLimit <? nodeLimit)%N then userLimit
    else if (nodeLimit <? userLimit)%N then nodeLimit
    else nodeLimit.

(** ** Keys *)

(** [fmt.Sprintf("%s|%s|%d", tag, email, uid)]. *)
Definition userKey (tag email : string) (uid : Z) : string :=
  tag ++ "|" ++ email ++ "|" ++ pretty uid.

(** [strings.Replace(s, old, new, 1)]: the first occurrence of [old] is
    replaced; an empty [old] matches at the start of [s]. *)
Fixpoint Replace1 (s old new : string) : string :=
  if String.prefix old s then
    new ++ String.substring (String.length old)
             (String.length s - String.length old) s
  else
    match s with
    | EmptyString => EmptyString
    | String c s' => String c (Replace1 s' old new)
    end.

(** ** Field updates of [*InboundInfo] *)

Definition set_UserInfoMap (m : SyncMap string UserInfo) (i : InboundInfo) :=
  {| Tag := Tag i; NodeSpeedLimit := NodeSpeedLimit i; UserInfoMap := m;
     BucketHub := BucketHub i; UserOnlineIP := UserOnlineIP i;
     OnlineDevice := OnlineDevice i; ipAllowedMap := ipAllowedMap i;
     Otraffic := Otraffic i; GlobalLimit := GlobalLimit i |}.

Definition set_BucketHub (m : SyncMap string RateLimiter) (i : InboundInfo) :=
  {| Tag := Tag i; NodeSpeedLimit := NodeSpeedLimit i;
     UserInfoMap := UserInfoMap i;
     BucketHub := m; UserOnlineIP := UserOnlineIP i;
     OnlineDevice := OnlineDevice i; ipAllowedMap := ipAllowedMap i;
     Otraffic := Otraffic i; GlobalLimit := GlobalLimit i |}.

Definition set_UserOnlineIP (m : SyncMap string (SyncMap string Z))
    (i : InboundInfo) :=
  {| Tag := Tag i; NodeSpeedLimit := NodeSpeedLimit i;
     UserInfoMap := UserInfoMap i;
     BucketHub := BucketHub i; UserOnlineIP := m;
     OnlineDevice := OnlineDevice i; ipAllowedMap := ipAllowedMap i;
     Otraffic := Otraffic i; GlobalLimit := GlobalLimit i |}.

Definition set_OnlineDevice (m : SyncMap Z string) (i : InboundInfo) :=
  {| Tag := Tag i; NodeSpeedLimit := NodeSpeedLimit i;
     UserInfoMap := UserInfoMap i;
     BucketHub := BucketHub i; UserOnlineIP := UserOnlineIP i;
     OnlineDevice := m; ipAllowedMap := ipAllowedMap i;
     Otraffic := Otraffic i; GlobalLimit := GlobalLimit i |}.

Definition set_ipAllowedMap (m : SyncMap string Z) (i : InboundInfo) :=
  {| Tag := Tag i; NodeSpeedLimit := NodeSpeedLimit i;
     UserInfoMap := UserInfoMap i;
     BucketHub := BucketHub i; UserOnlineIP := UserOnlineIP i;
     OnlineDevice := OnlineDevice i; ipAllowedMap := m;
     Otraffic := Otraffic i; GlobalLimit := GlobalLimit i |}.

Definition set_Otraffic (m : SyncMap Z Z) (i : InboundInfo) :=
  {| Tag := Tag i; NodeSpeedLimit := NodeSpeedLimit i;
     UserInfoMap := UserInfoMap i;
     BucketHub := BucketHub i; UserOnlineIP := UserOnlineIP i;
     OnlineDevice := OnlineDevice i; ipAllowedMap := ipAllowedMap i;
     Otraffic := m; GlobalLimit := GlobalLimit i |}.

(** A write through the [*InboundInfo] found under [tag]. *)
Definition put_inbound (tag : string) (i : InboundInfo) (l : Limiter) : Limiter :=
  {| Inbounds := Store tag i (Inbounds l) |}.

(** ** Inbound registry *)

Definition no_such_inbound (tag : string) : string :=
  "no such inbound in limiter: " ++ tag.

Definition to_UserInfo (u : api.UserInfo) : UserInfo :=
  {| UID := api.UID u; SpeedLimit := api.SpeedLimit u;
     DeviceLimit := api.DeviceLimit u |}.

Definition AddInboundLimiter (tag : string) (nodeSpeedLimit : N)
    (userList : list api.UserInfo)
    (globalLimit : option GlobalDeviceLimitConfig) (l : Limiter)
    : Limiter * option string :=
  let gl :=
    match globalLimit with
    | Some g =>
        if Enable g then Some (g, {| expiration := Expiry g |}) else None
    | None => None
    end in
  let userMap :=
    foldl (fun m u =>
             Store (userKey tag (api.Email u) (api.UID u)) (to_UserInfo u) m)
          [] userList in
  let inboundInfo :=
    {| Tag := tag; NodeSpeedLimit := nodeSpeedLimit; UserInfoMap := userMap;
       BucketHub := []; UserOnlineIP := []; OnlineDevice := [];
       ipAllowedMap := []; Otraffic := []; GlobalLimit := gl |} in
  (put_inbound tag inboundInfo l, None).

(** The body of the loop of [UpdateInboundLimiter]. *)
Definition update_user (tag : string) (inboundInfo : InboundInfo)
    (u : api.UserInfo) : InboundInfo :=
  let k := userKey tag (api.Email u) (api.UID u) in
  let i1 := set_UserInfoMap (Store k (to_UserInfo u) (UserInfoMap inboundInfo))
              inboundInfo in
  let lim := determineRate (NodeSpeedLimit i1) (api.SpeedLimit u) in
  if (0 <? lim)%N then
    match Load k (BucketHub i1) with
    | Some _ => set_BucketHub (Store k (NewLimiter lim) (BucketHub i1)) i1
    | None => i1
    end
  else set_BucketHub (Delete k (BucketHub i1)) i1.

Definition UpdateInboundLimiter (tag : string)
    (updatedUserList : list api.UserInfo) (l : Limiter)
    : Limiter * option string :=
  match Load tag (Inbounds l) with
  | Some inboundInfo =>
      (put_inbound tag (foldl (update_user tag) inboundInfo updatedUserList) l,
       None)
  | None => (l, Some (no_such_inbound tag))
  end.

Definition DeleteInboundLimiter (tag : string) (l : Limiter)
    : Limiter * option string :=
  ({| Inbounds := Delete tag (Inbounds l) |}, None).

Definition ResetOtraffic (tag : string) (l : Limiter)
    : Limiter * option string :=
  match Load tag (Inbounds l) with
  | Some inboundInfo => (put_inbound tag (set_Otraffic [] inboundInfo) l, None)
  | None => (l, None)
  end.

(** ** Online/traffic reconciler *)

(** Reading a Go map at a key it may lack gives the zero value. *)
Definition at0 (m : gmap Z Z) (k : Z) : Z := default 0 (m !! k).
Definition atEmpty (m : gmap Z string) (k : Z) : string := default "" (m !! k).

(** The copy of a [sync.Map] into a Go map by [Range]. *)
Definition snapshot {V} (m : SyncMap Z V) : gmap Z V :=
  foldl (fun acc kv => <[kv.1 := kv.2]> acc) ∅ m.

(** [X = userTraffic[uid] - PrevT[uid]] in [int64]. *)
Definition delta (userTraffic PrevT : gmap Z Z) (uid : Z) : Z :=
  wrap64 (at0 userTraffic uid - at0 PrevT uid).

(** What the closures of [GetOnlineDevice] write outside themselves. *)
Record Cycle := {
  onlineUser : list api.OnlineUser;
  diff : bool;
  inbound : InboundInfo
}.

(** The variables [uid], [X], [A] and [pip], declared once per user. *)
Record Locals := {
  l_uid : Z;
  l_X : Z;
  l_A : Z;
  l_pip : string
}.

Definition Locals0 : Locals := {| l_uid := 0; l_X := 0; l_A := 0; l_pip := "" |}.

(** The inner callback, run for each (IP, UID) of one user. *)
Definition visit_ip (userTraffic PrevT : gmap Z Z) (PrevO : gmap Z string)
    (T : Z) (st : Cycle * Locals) (kv : string * Z) : Cycle * Locals :=
  let c := st.1 in
  let uid := kv.2 in
  let ip := kv.1 in
  let A := match Load ip (ipAllowedMap (inbound c)) with
           | Some a => a
           | None => l_A st.2
           end in
  let i1 := set_Otraffic (Store uid (at0 userTraffic uid) (Otraffic (inbound c)))
              (inbound c) in
  let X := delta userTraffic PrevT uid in
  let pip := atEmpty PrevO uid in
  let loc := {| l_uid := uid; l_X := X; l_A := A; l_pip := pip |} in
  if decide (A ≠ 2) then
    let ip' := if X <=? T then "" else ip in
    ({| onlineUser := (onlineUser c ++ [ {| api.OnlineUID := uid; api.IP := ip' |} ])%list;
        diff := if decide (pip ≠ ip') then true else diff c;
        inbound := set_OnlineDevice (Store uid ip' (OnlineDevice i1)) i1 |},
     loc)
  else
    ({| onlineUser := onlineUser c; diff := diff c; inbound := i1 |}, loc).

(** The outer callback, run for each user of [UserOnlineIP]. *)
Definition visit_user (userTraffic PrevT : gmap Z Z) (PrevO : gmap Z string)
    (T : Z) (c : Cycle) (kv : string * SyncMap string Z) : Cycle :=
  let email := kv.1 in
  let ipMap := kv.2 in
  let st := foldl (visit_ip userTraffic PrevT PrevO T) (c, Locals0) ipMap in
  if bool_decide (l_A st.2 = 2) || (l_X st.2 <=? T) then
    {| onlineUser := onlineUser st.1; diff := diff st.1;
       inbound := set_UserOnlineIP (Delete email (UserOnlineIP (inbound st.1)))
                    (inbound st.1) |}
  else st.1.

(** The first [Range]: buckets of users who are not online are dropped. *)
Definition clear_buckets (inboundInfo : InboundInfo) : InboundInfo :=
  set_BucketHub
    (foldl (fun hub kv =>
              match Load kv.1 (UserOnlineIP inboundInfo) with
              | Some _ => hub
              | None => Delete kv.1 hub
              end)
           (BucketHub inboundInfo) (BucketHub inboundInfo))
    inboundInfo.

Definition GetOnlineDevice (tag : string) (userTraffic : gmap Z Z) (T : Z)
    (l : Limiter)
    : (option (list api.OnlineUser) * bool * option string) * Limiter :=
  match Load tag (Inbounds l) with
  | Some inboundInfo =>
      let i1 := clear_buckets inboundInfo in
      let PrevT := snapshot (Otraffic i1) in
      let PrevO := snapshot (OnlineDevice i1) in
      let i2 := set_Otraffic [] (set_OnlineDevice [] i1) in
      let c := foldl (visit_user userTraffic PrevT PrevO T)
                 {| onlineUser := []; diff := false; inbound := i2 |}
                 (UserOnlineIP i2) in
      ((Some (onlineUser c), diff c, None), put_inbound tag (inbound c) l)
  | None => ((None, false, Some (no_such_inbound tag)), l)
  end.

(** ** Connection setup *)

(** What a call leaves behind besides its result: goroutines started and
    lines logged. *)
Inductive Event :=
  | GoPushIP (uniqueKey : string) (ipMap : gmap string Z)
  | LogErrorInner (msg : string)
  | LogDebug (msg : string).

(** The answer of [globalOnlineIP.Get] within the timeout: a decoded entry,
    the [*store.NotFound] error, or any other error (transport, deadline,
    decoding). *)
Inductive GetResult :=
  | GetHit (ipMap : gmap string Z)
  | GetNotFound
  | GetFailed.

(** The loop of [ipAllowed]. *)
Fixpoint scanAlive (ip : string) (aliveIPs : list string) : Z :=
  match aliveIPs with
  | [] => 2
  | aliveIP :: rest => if decide (aliveIP = ip) then 1 else scanAlive ip rest
  end.

Definition ipAllowed (ip : string) (aliveIPs : list string) : Z :=
  if len aliveIPs =? 0 then 0 else scanAlive ip aliveIPs.

(** The entries of the shared cache: the map and the expiration it was
    stored with. *)
Definition Ledger : Type := gmap string (gmap string Z * Z).

(** [pushIP]; [setOk] tells whether [Set] succeeded. *)
Definition pushIP (inboundInfo : InboundInfo) (uniqueKey : string)
    (ipMap : gmap string Z) (setOk : bool) (c : Ledger)
    : Ledger * list Event :=
  match GlobalLimit inboundInfo with
  | Some (_, h) =>
      if setOk then (<[uniqueKey := (ipMap, expiration h)]> c, [])
      else (c, [LogErrorInner "cache service"])
  | None => (c, [])
  end.

(** The quota read at the head of [GetUserBucket]: the zero values when the
    user is not in the directory. *)
Definition userQuota (inboundInfo : InboundInfo) (email : string) : UserInfo :=
  default {| UID := 0; SpeedLimit := 0; DeviceLimit := 0 |}
    (Load email (UserInfoMap inboundInfo)).

Section Setup.
(** [api.UserAliveIPsMap], and the cache as the call finds it. *)
Variable UserAliveIPsMap : gmap Z (list string).
Variable cacheGet : string -> GetResult.

Definition GetUserAliveIPs (user : Z) : list string :=
  default [] (UserAliveIPsMap !! user).

Definition globalLimit (inboundInfo : InboundInfo) (email : string) (uid : Z)
    (ip : string) (deviceLimit : Z) : bool * list Event :=
  let uniqueKey := Replace1 email (Tag inboundInfo) (pretty deviceLimit) in
  match cacheGet uniqueKey with
  | GetNotFound => (false, [GoPushIP uniqueKey {[ ip := uid ]}])
  | GetFailed => (false, [LogErrorInner "cache service"])
  | GetHit ipMap =>
      if (0 <? deviceLimit) && (deviceLimit <? Z.of_nat (size ipMap)) then
        (true, [])
      else
        match ipMap !! ip with
        | None => (false, [GoPushIP uniqueKey (<[ip := uid]> ipMap)])
        | Some _ => (false, [])
        end
  end.

(** The block "Local device limit" of [GetUserBucket]: whether it rejects,
    and the inbound it leaves. *)
Definition localLimit (inboundInfo : InboundInfo) (email ip : string)
    (uid deviceLimit : Z) : bool * InboundInfo :=
  let aliveIPs := GetUserAliveIPs uid in
  let ipStatus := ipAllowed ip aliveIPs in
  let i1 := set_ipAllowedMap (Store ip ipStatus (ipAllowedMap inboundInfo))
              inboundInfo in
  if (ipStatus =? 2) && (0 <? deviceLimit) && (deviceLimit <=? len aliveIPs)
  then (true, i1)
  else
    match LoadOrStore email (Store ip uid []) (UserOnlineIP i1) with
    | (ipMap, true, _) =>
        match LoadOrStore ip uid ipMap with
        | (_, false, ipMap1) =>
            let counter := len ipMap1 in
            if negb (ipStatus =? 1) && (0 <? deviceLimit)
               && (deviceLimit <? counter + len aliveIPs)
            then
              (true,
               set_UserOnlineIP
                 (Store email (Delete ip ipMap1) (UserOnlineIP i1)) i1)
            else
              (false,
               set_UserOnlineIP (Store email ipMap1 (UserOnlineIP i1)) i1)
        | (_, true, _) => (false, i1)
        end
    | (_, false, online) => (false, set_UserOnlineIP online i1)
    end.

(** The block "Speed limit" of [GetUserBucket]. *)
Definition speedLimit (inboundInfo : InboundInfo) (email : string)
    (nodeLimit userLimit : N)
    : (option RateLimiter * bool * bool) * InboundInfo * list Event :=
  let lim := determineRate nodeLimit userLimit in
  if (0 <? lim)%N then
    match LoadOrStore email (NewLimiter lim) (BucketHub inboundInfo) with
    | (bucket, _, hub) =>
        ((Some bucket, true, false), set_BucketHub hub inboundInfo, [])
    end
  else
    ((None, false, false), inboundInfo,
     [LogDebug "Get Inbound Limiter information failed"]).

Definition GetUserBucket (tag email ip : string) (isSourceTCP : bool)
    (l : Limiter)
    : (option RateLimiter * bool * bool) * Limiter * list Event :=
  match Load tag (Inbounds l) with
  | Some inboundInfo =>
      let nodeLimit := NodeSpeedLimit inboundInfo in
      let u := userQuota inboundInfo email in
      let uid := UID u in
      let userLimit := SpeedLimit u in
      let deviceLimit := DeviceLimit u in
      let loc := if isSourceTCP
                 then localLimit inboundInfo email ip uid deviceLimit
                 else (false, inboundInfo) in
      if loc.1 then ((None, false, true), put_inbound tag loc.2 l, [])
      else
        let glo := match GlobalLimit loc.2 with
                   | Some (config, _) =>
                       if Enable config
                       then globalLimit loc.2 email uid ip deviceLimit
                       else (false, [])
                   | None => (false, [])
                   end in
        if glo.1 then ((None, false, true), put_inbound tag loc.2 l, glo.2)
        else
          match speedLimit loc.2 email nodeLimit userLimit with
          | (out, i3, ev) => (out, put_inbound tag i3 l, (glo.2 ++ ev)%list)
          end
  | None =>
      ((None, false, false), l,
       [LogDebug "Get Inbound Limiter information failed"])
  end.
End Setup.

(** ** Panel client: the loops that feed and drain the limiter *)

Module newV2board.
(** The fields of the panel's alive-IP record that [GetIpsList] reads. *)
Record aips := { Id : Z; AliveIPs : list string }.

(** The fields of [api.UserTraffic] that [ReportUserTraffic] reads. *)
Record UserTraffic := { TrafficUID : Z; Upload : Z; Download : Z }.

(** The end of [GetIpsList], once the response is decoded into [users]: an
    empty list is an error and leaves [api.UserAliveIPsMap] as it is;
    otherwise the table is built anew from the users that have alive IPs. *)
Definition storeAlive (m : gmap Z (list string)) (user : aips)
    : gmap Z (list string) :=
  if 0 <? len (AliveIPs user) then <[Id user := AliveIPs user]> m else m.

Definition storeAliveIPs (users : list aips) (old : gmap Z (list string))
    : gmap Z (list string) * option string :=
  if len users =? 0 then (old, Some "users is null")
  else (foldl storeAlive ∅ users, None).

(** The loop of [ReportNodeOnlineUsers]: the IPs sent for each UID and the
    number of non-empty ones, which becomes [LastReportOnline]. *)
Definition groupOnline (onlineUserList : list api.OnlineUser)
    : gmap Z (list string) * gmap Z Z :=
  foldl (fun acc onlineuser =>
           (<[api.OnlineUID onlineuser :=
                (default [] (acc.1 !! api.OnlineUID onlineuser)
                 ++ [api.IP onlineuser])%list]> acc.1,
            if decide (api.IP onlineuser ≠ "")
            then <[api.OnlineUID onlineuser :=
                     at0 acc.2 (api.OnlineUID onlineuser) + 1]> acc.2
            else acc.2))
        (∅, ∅) onlineUserList.

(** The loop of [ReportUserTraffic]: the pair sent for each UID. *)
Definition trafficData (userTraffic : list UserTraffic) : gmap Z (list Z) :=
  foldl (fun data traffic =>
           <[TrafficUID traffic := [Upload traffic; Download traffic]]> data)
        ∅ userTraffic.

(** The request path of the HTTP obfuscation header in
    [parseSSNodeResponse]. *)
Definition obfsPath (p : string) : string :=
  if decide (p ≠ "") then
    if String.prefix "/" p then p else "/" ++ p
  else "/".
End newV2board.

(** The IPs that a list of online users holds for a UID, in order. *)
Definition ipsOf (uid : Z) (l : list api.OnlineUser) : list string :=
  api.IP <$> filter (fun u => api.OnlineUID u = uid) l.

(** ** Notions used in the statements *)

(** The keys under which a user list is stored for an inbound. *)
Definition userKeys (tag : string) (users : list api.UserInfo) : list string :=
  (fun u => userKey tag (api.Email u) (api.UID u)) <$> users.

(** Everything of an inbound except its user directory and bucket table. *)
Definition same_outside_quota (i i' : InboundInfo) : Prop :=
  Tag i' = Tag i ∧ NodeSpeedLimit i' = NodeSpeedLimit i
  ∧ UserOnlineIP i' = UserOnlineIP i ∧ OnlineDevice i' = OnlineDevice i
  ∧ ipAllowedMap i' = ipAllowedMap i ∧ Otraffic i' = Otraffic i
  ∧ GlobalLimit i' = GlobalLimit i.

(** The IPs bound to a user, and the UID an IP is bound with. *)
Definition onlineSet (i : InboundInfo) (email : string) : SyncMap string Z :=
  default [] (Load email (UserOnlineIP i)).

Definition registered (i : InboundInfo) (email ip : string) : option Z :=
  Load ip (onlineSet i email).

(** The [Reject] result of [GetUserBucket]. *)
Definition Reject (r : option RateLimiter * bool * bool) : bool := r.2.

(** Whether the global ledger, when it is enabled, rejects the attempt. *)
Definition globalReject (cacheGet : string -> GetResult) (i : InboundInfo)
    (email ip : string) : bool :=
  match GlobalLimit i with
  | Some (config, _) =>
      Enable config
      && (globalLimit cacheGet i email (UID (userQuota i email)) ip
            (DeviceLimit (userQuota i email))).1
  | None => false
  end.

(** Everything of an inbound except the online IP sets, the allow-status
    cache and the bucket table. *)
Definition same_outside_setup (i i' : InboundInfo) : Prop :=
  Tag i' = Tag i ∧ NodeSpeedLimit i' = NodeSpeedLimit i
  ∧ UserInfoMap i' = UserInfoMap i ∧ OnlineDevice i' = OnlineDevice i
  ∧ Otraffic i' = Otraffic i ∧ GlobalLimit i' = GlobalLimit i.

(** The inbound once the classification of [ip] is cached. *)
Definition cached (ip : string) (ipStatus : Z) (i : InboundInfo) : InboundInfo :=
  set_ipAllowedMap (Store ip ipStatus (ipAllowedMap i)) i.

(** Successive connection-oriented attempts of one user from the given IPs:
    the [Reject] result of each, and the limiter they leave. *)
Definition admitSeq (alive : gmap Z (list string)) (cacheGet : string -> GetResult)
    (tag email : string) (ips : list string) (l : Limiter)
    : list bool * Limiter :=
  foldl (fun acc ip =>
           let r := GetUserBucket alive cacheGet tag email ip true acc.2 in
           ((acc.1 ++ [Reject r.1.1])%list, r.1.2))
        ([], l) ips.

(** The IP reported for a bound IP: empty when the traffic delta is within
    the threshold. *)
Definition reportedIP (userTraffic PrevT : gmap Z Z) (T : Z) (uid : Z)
    (ip : string) : string :=
  if delta userTraffic PrevT uid <=? T then "" else ip.

(** An entry differs from the IP the previous snapshot holds for its UID. *)
Definition changed (PrevO : gmap Z string) (u : api.OnlineUser) : bool :=
  bool_decide (atEmpty PrevO (api.OnlineUID u) ≠ api.IP u).

Definition storeUser (m : SyncMap Z string) (u : api.OnlineUser)
    : SyncMap Z string :=
  Store (api.OnlineUID u) (api.IP u) m.

(** What a stretch of the reconciler's loops does with the entries [new] it
    reports. *)
Definition cycle_step (PrevO : gmap Z string) (c c' : Cycle)
    (new : list api.OnlineUser) : Prop :=
  onlineUser c' = (onlineUser c ++ new)%list
  ∧ diff c' = diff c || existsb (changed PrevO) new
  ∧ OnlineDevice (inbound c') = foldl storeUser (OnlineDevice (inbound c)) new
  ∧ ipAllowedMap (inbound c') = ipAllowedMap (inbound c).

(** The entries [new] are those of the bound IPs of [ipMap] that the
    allow-status cache [amap] does not classify as unpinned. *)
Definition from_ips (amap : SyncMap string Z) (userTraffic PrevT : gmap Z Z)
    (T : Z) (ipMap : SyncMap string Z) (new : list api.OnlineUser) : Prop :=
  (∀ u, u ∈ new →
     ∃ ip, (ip, api.OnlineUID u) ∈ ipMap ∧ Load ip amap ≠ Some 2
           ∧ api.IP u = reportedIP userTraffic PrevT T (api.OnlineUID u) ip)
  ∧ (∀ ip uid a, (ip, uid) ∈ ipMap → Load ip amap = Some a → a ≠ 2 →
       {| api.OnlineUID := uid;
          api.IP := reportedIP userTraffic PrevT T uid ip |} ∈ new).

(** The UIDs bound in the online sets, in the order the reconciler visits
    them. *)
Definition boundUIDs (online : SyncMap string (SyncMap string Z)) : list Z :=
  flat_map (fun kv => kv.2.*2) online.

(** The values of [uid], [X], [A] and [pip] when the inner [Range] over the
    IPs of one user ends. *)
Definition finalLocals (amap : SyncMap string Z) (userTraffic PrevT : gmap Z Z)
    (PrevO : gmap Z string) (ipMap : SyncMap string Z) : Locals :=
  foldl (fun loc kv =>
           {| l_uid := kv.2; l_X := delta userTraffic PrevT kv.2;
              l_A := default (l_A loc) (Load kv.1 amap);
              l_pip := atEmpty PrevO kv.2 |})
        Locals0 ipMap.

(** The test that ends the outer callback: the user's online set is
    dropped. *)
Definition purged (amap : SyncMap string Z) (userTraffic PrevT : gmap Z Z)
    (PrevO : gmap Z string) (T : Z) (ipMap : SyncMap string Z) : bool :=
  bool_decide (l_A (finalLocals amap userTraffic PrevT PrevO ipMap) = 2)
  || (l_X (finalLocals amap userTraffic PrevT PrevO ipMap) <=? T).

(** The fields that the callbacks of the reconciler never write. *)
Definition untouched (i i' : InboundInfo) : Prop :=
  Tag i' = Tag i ∧ NodeSpeedLimit i' = NodeSpeedLimit i
  ∧ UserInfoMap i' = UserInfoMap i ∧ BucketHub i' = BucketHub i
  ∧ ipAllowedMap i' = ipAllowedMap i ∧ GlobalLimit i' = GlobalLimit i.

(** [inboundInfo.Otraffic.Store(uid, userTraffic[uid])]. *)
Definition storeTraffic (userTraffic : gmap Z Z) (m : SyncMap Z Z) (uid : Z)
    : SyncMap Z Z :=
  Store uid (at0 userTraffic uid) m.

(** Every bound IP has a classification in the allow-status cache. *)
Definition classified (i : InboundInfo) : Prop :=
  ∀ email ipMap ip uid,
    (email, ipMap) ∈ UserOnlineIP i → (ip, uid) ∈ ipMap →
    is_Some (Load ip (ipAllowedMap i)).

Definition Classified (l : Limiter) : Prop :=
  ∀ tag i, (tag, i) ∈ Inbounds l → classified i.

(** ** Concrete inputs *)

Definition exUser (deviceLimit : Z) : api.UserInfo :=
  {| api.UID := 7; api.Email := "u@x"; api.SpeedLimit := 0;
     api.DeviceLimit := deviceLimit |}.

Definition exKey : string := userKey "t" "u@x" 7.

(** One inbound ["t"] without speed cap, one user, no global ledger. *)
Definition exLimiter (deviceLimit : Z) : Limiter :=
  (AddInboundLimiter "t" 0 [exUser deviceLimit] None New).1.

Definition exConfig : GlobalDeviceLimitConfig :=
  {| Enable := true; Timeout := 1; Expiry := 60 |}.

(** The same inbound with the global ledger enabled. *)
Definition exGlobalLimiter (deviceLimit : Z) : Limiter :=
  (AddInboundLimiter "t" 0 [exUser deviceLimit] (Some exConfig) New).1.

(** The inbound that [exGlobalLimiter] registers. *)
Definition exGlobalInfo (deviceLimit : Z) : InboundInfo :=
  {| Tag := "t"; NodeSpeedLimit := 0;
     UserInfoMap :=
       [(exKey, {| UID := 7; SpeedLimit := 0; DeviceLimit := deviceLimit |})];
     BucketHub := []; UserOnlineIP := []; OnlineDevice := [];
     ipAllowedMap := []; Otraffic := [];
     GlobalLimit := Some (exConfig, {| expiration := 60 |}) |}.

Definition cacheMiss : string -> GetResult := fun _ => GetNotFound.

(** The user's alive-IP list holds the one IP ["P"]. *)
Definition exAlive : gmap Z (list string) := {[ 7 := ["P"] ]}.

Definition cacheDown : string -> GetResult := fun _ => GetFailed.

(** A ledger entry that already holds three IPs. *)
Definition cacheFull : string -> GetResult :=
  fun _ => GetHit {[ "X" := 7; "Y" := 7; "Z" := 7 ]}.

(** The inbound that [exLimiter] registers. *)
Definition exInfo (deviceLimit : Z) : InboundInfo :=
  {| Tag := "t"; NodeSpeedLimit := 0;
     UserInfoMap :=
       [(exKey, {| UID := 7; SpeedLimit := 0; DeviceLimit := deviceLimit |})];
     BucketHub := []; UserOnlineIP := []; OnlineDevice := [];
     ipAllowedMap := []; Otraffic := []; GlobalLimit := None |}.

(** The inbound of [exLimiter 2] once ["A"] and ["B"] are bound. *)
Definition exInfoAB : InboundInfo :=
  {| Tag := "t"; NodeSpeedLimit := 0;
     UserInfoMap := [(exKey, {| UID := 7; SpeedLimit := 0; DeviceLimit := 2 |})];
     BucketHub := [];
     UserOnlineIP := [(exKey, [("A", 7); ("B", 7)])];
     OnlineDevice := [];
     ipAllowedMap := [("A", 0); ("B", 0)];
     Otraffic := [];
     GlobalLimit := None |}.

Definition exLimiterAB : Limiter := {| Inbounds := [("t", exInfoAB)] |}.



(** One inbound ["t"] with a node speed cap of 1000 bytes a second. *)
Definition exRateInfo : InboundInfo :=
  {| Tag := "t"; NodeSpeedLimit := 1000;
     UserInfoMap := [(exKey, {| UID := 7; SpeedLimit := 0; DeviceLimit := 2 |})];
     BucketHub := []; UserOnlineIP := []; OnlineDevice := [];
     ipAllowedMap := []; Otraffic := []; GlobalLimit := None |}.

Definition exRateLimiter : Limiter := {| Inbounds := [("t", exRateInfo)] |}.

(** [exRateLimiter] once ["A"] is connected: the user has a bucket. *)
Definition exLimiterBucket : Limiter :=
  (GetUserBucket ∅ cacheDown "t" exKey "A" true exRateLimiter).1.2.

(** The same after a cycle without traffic: the user is no longer online,
    the bucket is still there. *)
Definition exLimiterIdle : Limiter :=
  (GetOnlineDevice "t" ∅ 10 exLimiterBucket).2.

(** * Properties *)

(** ** [sync.Map] as an association list *)

Section SyncMapFacts.
Context {K V : Type} `{EqDecision K}.
Implicit Types (k : K) (v : V) (m : SyncMap K V).

Lemma Load_Store_eq k v m : Load k (Store k v m) = Some v.
Proof.
  induction m as [|[k' v'] m IH]; simpl; repeat case_decide; simpl;
    repeat case_decide; congruence.
Qed.

Lemma Load_Store_ne k k' v m : k ≠ k' → Load k' (Store k v m) = Load k' m.
Proof.
  intros Hne. induction m as [|[k0 v0] m IH]; simpl; repeat case_decide;
    simpl; repeat case_decide; congruence.
Qed.

Lemma Load_Delete_eq k m : Load k (Delete k m) = None.
Proof.
  induction m as [|[k' v'] m IH]; simpl; repeat case_decide; simpl;
    repeat case_decide; congruence.
Qed.

Lemma Load_Delete_ne k k' m : k ≠ k' → Load k' (Delete k m) = Load k' m.
Proof.
  intros Hne. induction m as [|[k0 v0] m IH]; simpl; repeat case_decide;
    simpl; repeat case_decide; congruence.
Qed.

Lemma Store_Load_id k v m : Load k m = Some v → Store k v m = m.
Proof.
  induction m as [|[k' v'] m IH]; simpl; [done|].
  case_decide; intros Hl; simplify_eq; [done|]. by rewrite IH.
Qed.

Lemma Store_new k v m : Load k m = None → Store k v m = (m ++ [(k, v)])%list.
Proof.
  induction m as [|[k' v'] m IH]; simpl; [done|].
  case_decide; intros Hl; simplify_eq. by rewrite IH.
Qed.

Lemma Delete_absent k m : Load k m = None → Delete k m = m.
Proof.
  induction m as [|[k' v'] m IH]; simpl; [done|].
  case_decide; intros Hl; simplify_eq. by rewrite IH.
Qed.

Lemma Delete_app k m m' : Delete k (m ++ m')%list = (Delete k m ++ Delete k m')%list.
Proof.
  induction m as [|[k' v'] m IH]; simpl; [done|].
  case_decide; by rewrite IH.
Qed.

(** Registering a new key and deleting it again gives the map back. *)
Lemma Delete_Store_new k v m : Load k m = None → Delete k (Store k v m) = m.
Proof.
  intros Hl. rewrite (Store_new _ _ _ Hl), Delete_app, (Delete_absent _ _ Hl).
  simpl. case_decide; [|done]. by rewrite app_nil_r.
Qed.

Lemma Load_Some_elem k v m : Load k m = Some v → (k, v) ∈ m.
Proof.
  induction m as [|[k' v'] m IH]; simpl; [done|].
  case_decide; intros Hl; simplify_eq; [left | right; auto].
Qed.

Lemma Load_None_keys k m : Load k m = None ↔ k ∉ keys m.
Proof.
  unfold keys. induction m as [|[k' v'] m IH]; simpl.
  - split; [intros _; apply not_elem_of_nil | done].
  - rewrite not_elem_of_cons. case_decide; simplify_eq.
    + split; [done | intros [? _]; done].
    + rewrite IH. split; [intros ?; split; [congruence | done] | intros [_ ?]; done].
Qed.

Lemma length_Store_new k v m : Load k m = None → len (Store k v m) = len m + 1.
Proof.
  intros Hl. rewrite (Store_new _ _ _ Hl). unfold len.
  rewrite length_app. simpl. lia.
Qed.

Lemma Load_is_Some_Store k k' v m :
  is_Some (Load k' m) → is_Some (Load k' (Store k v m)).
Proof.
  intros Hs. destruct (decide (k = k')) as [->|Hne].
  - rewrite Load_Store_eq. eauto.
  - by rewrite Load_Store_ne.
Qed.
End SyncMapFacts.

(** ** Effective rate *)

(** C2. [determineRate] is 0 exactly when both limits are 0; with one
    limit 0 it is the other one; with both non-zero it is the smaller one.
    The four values of the specification are included. *)
Theorem determineRate_spec (nodeLimit userLimit : N) :
  (determineRate nodeLimit userLimit = 0%N ↔ nodeLimit = 0%N ∧ userLimit = 0%N)
  ∧ determineRate nodeLimit userLimit =
      match nodeLimit, userLimit with
      | 0%N, _ => userLimit
      | _, 0%N => nodeLimit
      | _, _ => N.min nodeLimit userLimit
      end
  ∧ determineRate 0 100 = 100%N
  ∧ determineRate 50 0 = 50%N
  ∧ determineRate 30 80 = 30%N
  ∧ determineRate 0 0 = 0%N.
Proof.
  assert (Hcase : determineRate nodeLimit userLimit =
      match nodeLimit, userLimit with
      | 0%N, _ => userLimit
      | _, 0%N => nodeLimit
      | _, _ => N.min nodeLimit userLimit
      end).
  { unfold determineRate.
    destruct (N.eqb_spec nodeLimit 0) as [->|Hn];
      destruct (N.eqb_spec userLimit 0) as [->|Hu]; simpl.
    - reflexivity.
    - destruct (N.ltb_spec userLimit 0); [lia|].
      destruct (N.ltb_spec 0 userLimit); [done | lia].
    - destruct (N.ltb_spec 0 nodeLimit); [|lia].
      by destruct nodeLimit.
    - destruct nodeLimit as [|p]; [done|]. destruct userLimit as [|q]; [done|].
      destruct (N.ltb_spec (N.pos q) (N.pos p));
        [by rewrite N.min_r by lia|].
      destruct (N.ltb_spec (N.pos p) (N.pos q)); by rewrite N.min_l by lia. }
  split; [|split; [exact Hcase | by repeat split]].
  rewrite Hcase.
  destruct nodeLimit as [|p]; destruct userLimit as [|q];
    (split; [intros ?|intros [? ?]]; try split; lia).
Qed.

(** ** Inbound registry *)

Lemma Load_put_inbound_eq tag i l : Load tag (Inbounds (put_inbound tag i l)) = Some i.
Proof. apply Load_Store_eq. Qed.

Lemma Load_put_inbound_ne tag tag' i l :
  tag ≠ tag' → Load tag' (Inbounds (put_inbound tag i l)) = Load tag' (Inbounds l).
Proof. apply Load_Store_ne. Qed.

Lemma update_user_outside tag i u : same_outside_quota i (update_user tag i u).
Proof.
  unfold update_user, same_outside_quota. simpl.
  repeat case_match; simpl; done.
Qed.

Lemma update_user_other tag i u k :
  k ≠ userKey tag (api.Email u) (api.UID u) →
  Load k (UserInfoMap (update_user tag i u)) = Load k (UserInfoMap i)
  ∧ Load k (BucketHub (update_user tag i u)) = Load k (BucketHub i).
Proof.
  intros Hne. unfold update_user. simpl.
  repeat case_match; simpl;
    rewrite ?Load_Store_ne, ?Load_Delete_ne by done; done.
Qed.

Lemma update_user_keeps_users tag i u k :
  is_Some (Load k (UserInfoMap i)) →
  is_Some (Load k (UserInfoMap (update_user tag i u))).
Proof.
  intros Hs. unfold update_user. simpl.
  repeat case_match; simpl; by apply Load_is_Some_Store.
Qed.

Lemma update_user_no_new_bucket tag i u k :
  is_Some (Load k (BucketHub (update_user tag i u))) →
  is_Some (Load k (BucketHub i)).
Proof.
  unfold update_user. simpl.
  set (k0 := userKey tag (api.Email u) (api.UID u)).
  destruct (decide (k0 = k)) as [<-|Hne];
    repeat case_match; simpl;
    rewrite ?Load_Delete_eq, ?Load_Store_ne, ?Load_Delete_ne by done;
    eauto; intros [? ?]; congruence.
Qed.

Lemma update_users_frame tag users : ∀ i,
  let i' := foldl (update_user tag) i users in
  same_outside_quota i i'
  ∧ (∀ k, k ∉ userKeys tag users →
       Load k (UserInfoMap i') = Load k (UserInfoMap i)
       ∧ Load k (BucketHub i') = Load k (BucketHub i))
  ∧ (∀ k, is_Some (Load k (UserInfoMap i)) → is_Some (Load k (UserInfoMap i')))
  ∧ (∀ k, is_Some (Load k (BucketHub i')) → is_Some (Load k (BucketHub i))).
Proof.
  induction users as [|u users IH]; intros i; simpl.
  - unfold same_outside_quota. by repeat split.
  - destruct (IH (update_user tag i u)) as (Hout & Hfr & Hkeep & Hnew).
    destruct (update_user_outside tag i u) as (? & ? & ? & ? & ? & ? & ?).
    destruct Hout as (? & ? & ? & ? & ? & ? & ?).
    split; [unfold same_outside_quota; repeat split; congruence|].
    split; [|split].
    + intros k Hk. apply not_elem_of_cons in Hk as [Hk1 Hk2].
      destruct (Hfr k Hk2) as [-> ->]. by apply update_user_other.
    + intros k Hs. by apply Hkeep, update_user_keeps_users.
    + intros k Hs. by eapply update_user_no_new_bucket, Hnew.
Qed.

Lemma update_user_self tag i u :
  Load (userKey tag (api.Email u) (api.UID u)) (UserInfoMap (update_user tag i u))
  = Some (to_UserInfo u)
  ∧ Load (userKey tag (api.Email u) (api.UID u)) (BucketHub (update_user tag i u))
    = if (0 <? determineRate (NodeSpeedLimit i) (api.SpeedLimit u))%N
      then (fun _ => NewLimiter (determineRate (NodeSpeedLimit i) (api.SpeedLimit u)))
             <$> Load (userKey tag (api.Email u) (api.UID u)) (BucketHub i)
      else None.
Proof.
  unfold update_user. simpl.
  destruct (0 <? determineRate (NodeSpeedLimit i) (api.SpeedLimit u))%N; simpl.
  - destruct (Load (userKey tag (api.Email u) (api.UID u)) (BucketHub i))
      as [b|] eqn:Hb; simpl; rewrite !Load_Store_eq; [done|].
    by rewrite Hb.
  - by rewrite Load_Store_eq, Load_Delete_eq.
Qed.

(** With one entry per key in the list, every listed user ends with its new
    quota, and its bucket is adjusted to the new effective rate if it
    existed and that rate is not 0, deleted if the rate is 0. *)
Lemma update_users_listed tag users : ∀ i u,
  NoDup (userKeys tag users) → u ∈ users →
  Load (userKey tag (api.Email u) (api.UID u))
    (UserInfoMap (foldl (update_user tag) i users))
  = Some (to_UserInfo u)
  ∧ Load (userKey tag (api.Email u) (api.UID u))
      (BucketHub (foldl (update_user tag) i users))
    = if (0 <? determineRate (NodeSpeedLimit i) (api.SpeedLimit u))%N
      then (fun _ => NewLimiter (determineRate (NodeSpeedLimit i) (api.SpeedLimit u)))
             <$> Load (userKey tag (api.Email u) (api.UID u)) (BucketHub i)
      else None.
Proof.
  induction users as [|u0 users IH]; intros i u Hnd Hin; simpl.
  - by apply elem_of_nil in Hin.
  - unfold userKeys in Hnd. rewrite fmap_cons in Hnd.
    apply NoDup_cons in Hnd as [Hfresh Hnd].
    apply elem_of_cons in Hin as [->|Hin].
    + destruct (update_users_frame tag users (update_user tag i u0))
        as (_ & Hfr & _).
      destruct (Hfr _ Hfresh) as [-> ->]. apply update_user_self.
    + destruct (IH (update_user tag i u0) u Hnd Hin) as [-> ->].
      destruct (update_user_outside tag i u0) as (_ & -> & _).
      assert (Hne : userKey tag (api.Email u) (api.UID u)
                    ≠ userKey tag (api.Email u0) (api.UID u0)).
      { intros Heq. apply Hfresh. rewrite <- Heq.
        by apply (list_elem_of_fmap_2
                    (fun u => userKey tag (api.Email u) (api.UID u))). }
      destruct (update_user_other tag i u0 _ Hne) as [_ ->]. done.
Qed.

Lemma AddInboundLimiter_users tag users : ∀ m k,
  is_Some (Load k (foldl (fun m u =>
             Store (userKey tag (api.Email u) (api.UID u)) (to_UserInfo u) m)
          m users))
  ↔ is_Some (Load k m) ∨ k ∈ userKeys tag users.
Proof.
  induction users as [|u users IH]; intros m k; simpl.
  - split; [by left | intros [?|Hin]; [done | by apply elem_of_nil in Hin]].
  - rewrite IH, elem_of_cons.
    destruct (decide (userKey tag (api.Email u) (api.UID u) = k)) as [<-|Hne].
    + rewrite Load_Store_eq. split; [intros _; right; by left | eauto].
    + rewrite Load_Store_ne by done.
      split; [intros [?|?]; [by left | right; by right]
             | intros [?|[?|?]]; [by left | congruence | by right]].
Qed.

(** C10. [UpdateInboundLimiter] on an existing inbound touches only the
    quota entries and buckets stored under the keys of the listed users:
    every other quota entry and bucket, the tag, the node speed cap, the
    online IP sets, the online snapshot, the allow-status cache, the traffic
    accumulator, the global-limit handle and every other inbound are as
    before.  It drops no quota entry and creates no bucket; a listed user
    (one entry per key) ends with its new quota, and its bucket, if it had
    one, is adjusted to the new effective rate or deleted when that rate
    is 0.  After [AddInboundLimiter] the user directory holds exactly the
    listed users. *)
Theorem UpdateInboundLimiter_frame (tag : string) (users : list api.UserInfo)
    (l : Limiter) (info : InboundInfo) :
  Load tag (Inbounds l) = Some info →
  ∃ info',
    UpdateInboundLimiter tag users l = (put_inbound tag info' l, None)
    ∧ Load tag (Inbounds (put_inbound tag info' l)) = Some info'
    ∧ (∀ tag', tag ≠ tag' →
         Load tag' (Inbounds (put_inbound tag info' l)) = Load tag' (Inbounds l))
    ∧ same_outside_quota info info'
    ∧ (∀ k, k ∉ userKeys tag users →
         Load k (UserInfoMap info') = Load k (UserInfoMap info)
         ∧ Load k (BucketHub info') = Load k (BucketHub info))
    ∧ (∀ k, is_Some (Load k (UserInfoMap info)) →
         is_Some (Load k (UserInfoMap info')))
    ∧ (∀ k, is_Some (Load k (BucketHub info')) →
         is_Some (Load k (BucketHub info)))
    ∧ (NoDup (userKeys tag users) →
       ∀ u, u ∈ users →
         Load (userKey tag (api.Email u) (api.UID u)) (UserInfoMap info')
         = Some (to_UserInfo u)
         ∧ Load (userKey tag (api.Email u) (api.UID u)) (BucketHub info')
           = if (0 <? determineRate (NodeSpeedLimit info) (api.SpeedLimit u))%N
             then (fun _ => NewLimiter
                              (determineRate (NodeSpeedLimit info)
                                 (api.SpeedLimit u)))
                    <$> Load (userKey tag (api.Email u) (api.UID u))
                          (BucketHub info)
             else None)
    ∧ (∀ n newUsers g, ∃ fresh,
         Load tag (Inbounds (AddInboundLimiter tag n newUsers g l).1) = Some fresh
         ∧ ∀ k, is_Some (Load k (UserInfoMap fresh)) ↔ k ∈ userKeys tag newUsers).
Proof.
  intros Hl. exists (foldl (update_user tag) info users).
  unfold UpdateInboundLimiter. rewrite Hl.
  split; [done|]. split; [apply Load_put_inbound_eq|].
  split; [intros; by apply Load_put_inbound_ne|].
  destruct (update_users_frame tag users info) as (Hout & Hfr & Hkeep & Hnew).
  do 4 (split; [done|]).
  split; [intros Hnd u Hin; by apply update_users_listed|].
  intros n newUsers g. eexists. split; [apply Load_put_inbound_eq|].
  intros k. simpl. rewrite AddInboundLimiter_users. simpl.
  split; [intros [[? ?]|?]; done | by right].
Qed.

Lemma UpdateInboundLimiter_frame_witness :
  ∃ info',
    UpdateInboundLimiter "t" [exUser 5] (exLimiter 2)
      = (put_inbound "t" info' (exLimiter 2), None)
    ∧ same_outside_quota (exInfo 2) info'
    ∧ Load exKey (UserInfoMap info')
      = Some {| UID := 7; SpeedLimit := 0; DeviceLimit := 5 |}.
Proof.
  destruct (UpdateInboundLimiter_frame "t" [exUser 5] (exLimiter 2) (exInfo 2)
              eq_refl)
    as (info' & Hcall & _ & _ & Hout & _).
  exists info'. split; [exact Hcall|]. split; [exact Hout|].
  vm_compute in Hcall. injection Hcall as <-. reflexivity.
Defined.

(** ** Local device tracker *)

Lemma scanAlive_spec ip aliveIPs :
  scanAlive ip aliveIPs = if bool_decide (ip ∈ aliveIPs) then 1 else 2.
Proof.
  induction aliveIPs as [|a rest IH]; simpl; [done|].
  destruct (decide (a = ip)) as [->|Hne].
  - rewrite bool_decide_eq_true_2; [done | left].
  - rewrite IH. apply (f_equal (fun b : bool => if b then 1 else 2)).
    apply bool_decide_ext. rewrite elem_of_cons.
    split; [by right | intros [?|?]; [congruence | done]].
Qed.

Lemma len_nonneg {A} (l : list A) : 0 ≤ len l.
Proof. unfold len. lia. Qed.

Lemma len_zero {A} (l : list A) : len l = 0 ↔ l = [].
Proof. unfold len. destruct l; simpl; split; intros; try done; lia. Qed.

Lemma ipAllowed_pinned ip aliveIPs : ip ∈ aliveIPs ↔ ipAllowed ip aliveIPs = 1.
Proof.
  unfold ipAllowed. rewrite scanAlive_spec.
  destruct (Z.eqb_spec (len aliveIPs) 0) as [Hz|Hz].
  - apply len_zero in Hz as ->. split; [intros Hin | done].
    by apply elem_of_nil in Hin.
  - case_bool_decide; split; intros; done.
Qed.

Lemma ipAllowed_no_list ip aliveIPs : aliveIPs = [] ↔ ipAllowed ip aliveIPs = 0.
Proof.
  unfold ipAllowed. rewrite scanAlive_spec.
  destruct (Z.eqb_spec (len aliveIPs) 0) as [Hz|Hz].
  - apply len_zero in Hz as ->. done.
  - rewrite len_zero in Hz. case_bool_decide; split; intros; done.
Qed.

Lemma ipAllowed_unpinned ip aliveIPs :
  aliveIPs ≠ [] ∧ ip ∉ aliveIPs ↔ ipAllowed ip aliveIPs = 2.
Proof.
  unfold ipAllowed. rewrite scanAlive_spec.
  destruct (Z.eqb_spec (len aliveIPs) 0) as [Hz|Hz].
  - apply len_zero in Hz as ->. split; [intros [? _]; done | done].
  - rewrite len_zero in Hz. case_bool_decide; split; try done.
    intros [_ ?]; done.
Qed.

Lemma ipAllowed_range ip aliveIPs :
  ipAllowed ip aliveIPs = 0 ∨ ipAllowed ip aliveIPs = 1 ∨ ipAllowed ip aliveIPs = 2.
Proof.
  unfold ipAllowed. rewrite scanAlive_spec.
  destruct (len aliveIPs =? 0); [by left|]. case_bool_decide; auto.
Qed.

Lemma set_UserOnlineIP_id i : set_UserOnlineIP (UserOnlineIP i) i = i.
Proof. by destruct i. Qed.

Section SetupFacts.
Variable alive : gmap Z (list string).
Variable cacheGet : string → GetResult.

Lemma localLimit_new i email ip uid dl :
  registered i email ip = None →
  localLimit alive i email ip uid dl =
    if decide (ipAllowed ip (GetUserAliveIPs alive uid) ≠ 1 ∧ 0 < dl
               ∧ dl < len (onlineSet i email) + 1
                      + len (GetUserAliveIPs alive uid))
    then (true, cached ip (ipAllowed ip (GetUserAliveIPs alive uid)) i)
    else (false,
          set_UserOnlineIP
            (Store email (Store ip uid (onlineSet i email)) (UserOnlineIP i))
            (cached ip (ipAllowed ip (GetUserAliveIPs alive uid)) i)).
Proof.
  unfold registered, onlineSet, localLimit, LoadOrStore, cached.
  set (aliveIPs := GetUserAliveIPs alive uid).
  set (st := ipAllowed ip aliveIPs).
  pose proof (len_nonneg aliveIPs) as Hlen.
  pose proof (ipAllowed_no_list ip aliveIPs) as Hno. fold st in Hno.
  pose proof (ipAllowed_range ip aliveIPs) as Hrange. fold st in Hrange.
  intros Hreg. simpl.
  destruct (Load email (UserOnlineIP i)) as [m|] eqn:Hm; simpl in *.
  - rewrite Hreg. rewrite (length_Store_new _ _ _ Hreg).
    rewrite (Delete_Store_new _ _ _ Hreg), (Store_Load_id _ _ _ Hm).
    pose proof (len_nonneg m) as Hm0.
    change (set_UserOnlineIP (UserOnlineIP i) ?x) with
      (set_UserOnlineIP (UserOnlineIP x) x).
    rewrite set_UserOnlineIP_id.
    destruct (Z.eqb_spec st 2), (Z.eqb_spec st 1), (Z.ltb_spec 0 dl),
      (Z.leb_spec dl (len aliveIPs)),
      (Z.ltb_spec dl (len m + 1 + len aliveIPs));
      simpl; case_decide; try done; lia.
  - assert (len (@nil (string * Z)) = 0) as -> by done.
    destruct (Z.eqb_spec st 2), (Z.ltb_spec 0 dl),
      (Z.leb_spec dl (len aliveIPs));
      simpl; case_decide; try done; try lia.
    all: destruct Hrange as [Hs0|[Hs1|Hs2]]; try lia.
    all: apply Hno in Hs0; rewrite Hs0 in *; unfold len in *; simpl in *; lia.
Qed.

Lemma localLimit_member i email ip uid dl v :
  registered i email ip = Some v →
  localLimit alive i email ip uid dl =
    (bool_decide (ipAllowed ip (GetUserAliveIPs alive uid) = 2 ∧ 0 < dl
                  ∧ dl ≤ len (GetUserAliveIPs alive uid)),
     cached ip (ipAllowed ip (GetUserAliveIPs alive uid)) i).
Proof.
  unfold registered, onlineSet, localLimit, LoadOrStore, cached.
  set (aliveIPs := GetUserAliveIPs alive uid).
  set (st := ipAllowed ip aliveIPs).
  intros Hreg. simpl.
  destruct (Load email (UserOnlineIP i)) as [m|] eqn:Hm; simpl in *; [|done].
  rewrite Hreg.
  destruct (Z.eqb_spec st 2), (Z.ltb_spec 0 dl),
    (Z.leb_spec dl (len aliveIPs)); simpl; case_bool_decide; try done; lia.
Qed.

Lemma localLimit_outside i email ip uid dl :
  same_outside_setup i (localLimit alive i email ip uid dl).2
  ∧ BucketHub (localLimit alive i email ip uid dl).2 = BucketHub i.
Proof.
  unfold localLimit, LoadOrStore, same_outside_setup.
  repeat case_match; simplify_eq; simpl; done.
Qed.

Lemma globalLimit_Tag i i' email uid ip dl :
  Tag i' = Tag i →
  globalLimit cacheGet i' email uid ip dl = globalLimit cacheGet i email uid ip dl.
Proof. unfold globalLimit. by intros ->. Qed.

(** The shape of a call on a registered inbound: the local block runs for a
    connection-oriented attempt, then the global ledger, then the bucket
    lookup, which touches the bucket table only. *)
Lemma GetUserBucket_known tag email ip tcp l info :
  Load tag (Inbounds l) = Some info →
  ∃ r info' ev,
    GetUserBucket alive cacheGet tag email ip tcp l
      = (r, put_inbound tag info' l, ev)
    ∧ Reject r =
        (if tcp
         then (localLimit alive info email ip (UID (userQuota info email))
                 (DeviceLimit (userQuota info email))).1
         else false)
        || globalReject cacheGet info email ip
    ∧ UserOnlineIP info' =
        UserOnlineIP
          (if tcp
           then (localLimit alive info email ip (UID (userQuota info email))
                   (DeviceLimit (userQuota info email))).2
           else info)
    ∧ ipAllowedMap info' =
        ipAllowedMap
          (if tcp
           then (localLimit alive info email ip (UID (userQuota info email))
                   (DeviceLimit (userQuota info email))).2
           else info)
    ∧ same_outside_setup info info'
    ∧ (Reject r = true → r = (None, false, true)
                         ∧ BucketHub info' = BucketHub info)
    ∧ (Reject r = false →
         r = match determineRate (NodeSpeedLimit info)
                     (SpeedLimit (userQuota info email)) with
             | 0%N => (None, false, false)
             | lim => (Some (default (NewLimiter lim)
                               (Load email (BucketHub info))), true, false)
             end).
Proof.
  intros Hl. unfold GetUserBucket. rewrite Hl.
  set (u := userQuota info email).
  set (loc := if tcp then localLimit alive info email ip (UID u) (DeviceLimit u)
              else (false, info)).
  assert (Hloc : same_outside_setup info loc.2 ∧ BucketHub loc.2 = BucketHub info).
  { subst loc. destruct tcp; [apply localLimit_outside|].
    unfold same_outside_setup. by repeat split. }
  destruct Hloc as [(HT & HN & HU & HO & HTr & HG) HB].
  assert (Hg : match GlobalLimit loc.2 with
               | Some (config, _) =>
                   if Enable config
                   then globalLimit cacheGet loc.2 email (UID u) ip (DeviceLimit u)
                   else (false, [])
               | None => (false, [])
               end.1 = globalReject cacheGet info email ip).
  { unfold globalReject. rewrite HG. fold u.
    destruct (GlobalLimit info) as [[config h]|]; [|done].
    rewrite (globalLimit_Tag info loc.2) by done.
    by destruct (Enable config). }
  replace (if tcp then (localLimit alive info email ip (UID u) (DeviceLimit u)).1
           else false) with loc.1 by (subst loc; by destruct tcp).
  replace (if tcp then (localLimit alive info email ip (UID u) (DeviceLimit u)).2
           else info) with loc.2 by (subst loc; by destruct tcp).
  destruct (loc.1) eqn:Hloc1.
  { eexists _, _, _. split; [done|]. simpl.
    repeat split; try done. }
  rewrite <- Hg. simpl.
  match goal with |- context [if ?g.1 then _ else _] => destruct (g.1) eqn:Hg1 end.
  { eexists _, _, _. split; [done|]. simpl. repeat split; try done. }
  unfold speedLimit, LoadOrStore. rewrite HB.
  destruct (determineRate (NodeSpeedLimit info) (SpeedLimit u)) as [|lim] eqn:Hr;
    simpl.
  { eexists _, _, _. split; [done|]. simpl. repeat split; try done. }
  destruct (Load email (BucketHub info)) as [b|] eqn:Hb; simpl;
    eexists _, _, _; (split; [done|]); simpl; repeat split; try done.
Qed.
End SetupFacts.

Section DeviceLimit.
Variable alive : gmap Z (list string).
Variable cacheGet : string → GetResult.

(** A later attempt from a new IP outside the alive list is rejected as
    soon as the set size after registration plus the alive-list size
    exceeds a positive device limit. *)
Lemma GetUserBucket_over_limit tag email ip l info :
  Load tag (Inbounds l) = Some info →
  registered info email ip = None →
  ipAllowed ip (GetUserAliveIPs alive (UID (userQuota info email))) ≠ 1 →
  0 < DeviceLimit (userQuota info email) →
  DeviceLimit (userQuota info email)
    < len (onlineSet info email) + 1
      + len (GetUserAliveIPs alive (UID (userQuota info email))) →
  Reject (GetUserBucket alive cacheGet tag email ip true l).1.1 = true.
Proof.
  intros Hl Hreg Hst Hpos Hover.
  destruct (GetUserBucket_known alive cacheGet tag email ip true l info Hl)
    as (r & info' & ev & -> & HR & _).
  simpl. rewrite HR, (localLimit_new alive _ _ _ _ _ Hreg).
  by rewrite decide_True.
Qed.
End DeviceLimit.

(** C8. When the IP is classified unpinned, the device limit is positive and
    the alive list alone reaches it, a connection-oriented [GetUserBucket]
    rejects at once, logs nothing and starts nothing; the online IP sets, the
    bucket table, the traffic accumulator, the user directory and the online
    snapshot are untouched.  The allow-status cache is not: the
    classification 2 of the IP was stored before the test. *)
Theorem GetUserBucket_early_reject (alive : gmap Z (list string))
    (cacheGet : string → GetResult) (tag email ip : string) (l : Limiter)
    (info : InboundInfo) :
  Load tag (Inbounds l) = Some info →
  ipAllowed ip (GetUserAliveIPs alive (UID (userQuota info email))) = 2 →
  0 < DeviceLimit (userQuota info email) →
  DeviceLimit (userQuota info email)
    ≤ len (GetUserAliveIPs alive (UID (userQuota info email))) →
  ∃ info',
    GetUserBucket alive cacheGet tag email ip true l
      = ((None, false, true), put_inbound tag info' l, [])
    ∧ UserOnlineIP info' = UserOnlineIP info
    ∧ BucketHub info' = BucketHub info
    ∧ Otraffic info' = Otraffic info
    ∧ UserInfoMap info' = UserInfoMap info
    ∧ OnlineDevice info' = OnlineDevice info
    ∧ ipAllowedMap info' = Store ip 2 (ipAllowedMap info)
    ∧ ∀ tag', tag ≠ tag' →
        Load tag' (Inbounds (put_inbound tag info' l)) = Load tag' (Inbounds l).
Proof.
  intros Hl Hst Hpos Hle. exists (cached ip 2 info).
  split; [|repeat split; try done; intros; by apply Load_put_inbound_ne].
  unfold GetUserBucket. rewrite Hl. unfold localLimit. rewrite Hst. simpl.
  destruct (Z.ltb_spec 0 (DeviceLimit (userQuota info email))); [|lia].
  destruct (Z.leb_spec (DeviceLimit (userQuota info email))
              (len (GetUserAliveIPs alive (UID (userQuota info email)))));
    [done | lia].
Qed.

Lemma GetUserBucket_early_reject_witness :
  ∃ info',
    GetUserBucket exAlive cacheDown "t" exKey "Q" true (exLimiter 1)
      = ((None, false, true), put_inbound "t" info' (exLimiter 1), [])
    ∧ UserOnlineIP info' = []
    ∧ BucketHub info' = []
    ∧ Otraffic info' = []
    ∧ UserInfoMap info'
        = [(exKey, {| UID := 7; SpeedLimit := 0; DeviceLimit := 1 |})]
    ∧ OnlineDevice info' = []
    ∧ ipAllowedMap info' = [("Q", 2)]
    ∧ ∀ tag', "t" ≠ tag' →
        Load tag' (Inbounds (put_inbound "t" info' (exLimiter 1)))
        = Load tag' (Inbounds (exLimiter 1)).
Proof.
  apply (GetUserBucket_early_reject exAlive cacheDown "t" exKey "Q"
           (exLimiter 1) (exInfo 1));
    vm_compute; first [reflexivity | discriminate].
Defined.

(** The early rejection does write the allow-status cache: the cache is
    empty before the call and holds the rejected IP after it. *)
Lemma GetUserBucket_early_reject_writes_cache :
  ipAllowedMap <$> Load "t" (Inbounds (exLimiter 1)) = Some []
  ∧ (GetUserBucket exAlive cacheDown "t" exKey "Q" true (exLimiter 1)).1.1
    = (None, false, true)
  ∧ ipAllowedMap <$>
      Load "t"
        (Inbounds
           (GetUserBucket exAlive cacheDown "t" exKey "Q" true (exLimiter 1)).1.2)
    = Some [("Q", 2)].
Proof. vm_compute. done. Qed.

(** ** Unknown inbound *)

Lemma ResetOtraffic_unknown tag l :
  Load tag (Inbounds l) = None → ResetOtraffic tag l = (l, None).
Proof. intros Hl. unfold ResetOtraffic. by rewrite Hl. Qed.

(** C9. On a tag without inbound, [UpdateInboundLimiter] and
    [GetOnlineDevice] return the error "no such inbound" and change nothing.
    [GetUserBucket] has no error result: it changes nothing and returns no
    limiter, not limited, not rejected, which differs from a rejection and
    is the very result of a registered inbound that admits the attempt and
    has no rate to enforce. *)
Theorem unknown_inbound_results (alive : gmap Z (list string))
    (cacheGet : string → GetResult) (tag email ip : string) (tcp : bool)
    (users : list api.UserInfo) (userTraffic : gmap Z Z) (T : Z) (l : Limiter) :
  Load tag (Inbounds l) = None →
  UpdateInboundLimiter tag users l = (l, Some (no_such_inbound tag))
  ∧ GetOnlineDevice tag userTraffic T l
    = ((None, false, Some (no_such_inbound tag)), l)
  ∧ GetUserBucket alive cacheGet tag email ip tcp l
    = ((None, false, false), l,
       [LogDebug "Get Inbound Limiter information failed"])
  ∧ Reject (GetUserBucket alive cacheGet tag email ip tcp l).1.1 = false
  ∧ ∀ tag' email' ip' tcp' info,
      Load tag' (Inbounds l) = Some info →
      Reject (GetUserBucket alive cacheGet tag' email' ip' tcp' l).1.1 = false →
      determineRate (NodeSpeedLimit info) (SpeedLimit (userQuota info email'))
        = 0%N →
      (GetUserBucket alive cacheGet tag' email' ip' tcp' l).1.1
      = (GetUserBucket alive cacheGet tag email ip tcp l).1.1.
Proof.
  intros Hl.
  assert (Hunk : GetUserBucket alive cacheGet tag email ip tcp l
                 = ((None, false, false), l,
                    [LogDebug "Get Inbound Limiter information failed"])).
  { unfold GetUserBucket. by rewrite Hl. }
  rewrite Hunk. unfold UpdateInboundLimiter, GetOnlineDevice.
  rewrite Hl. do 4 (split; [done|]).
  intros tag' email' ip' tcp' info Hl' Hrej Hrate.
  destruct (GetUserBucket_known alive cacheGet tag' email' ip' tcp' l info Hl')
    as (r & info' & ev & Heq & _ & _ & _ & _ & _ & Hout).
  rewrite Heq in *. simpl in *. rewrite (Hout Hrej), Hrate. done.
Qed.

Lemma unknown_inbound_results_witness :
  UpdateInboundLimiter "nope" [exUser 2] (exLimiter 2)
    = (exLimiter 2, Some (no_such_inbound "nope"))
  ∧ GetOnlineDevice "nope" ∅ 0 (exLimiter 2)
    = ((None, false, Some (no_such_inbound "nope")), exLimiter 2)
  ∧ GetUserBucket ∅ cacheDown "nope" exKey "A" true (exLimiter 2)
    = ((None, false, false), exLimiter 2,
       [LogDebug "Get Inbound Limiter information failed"])
  ∧ Reject (GetUserBucket ∅ cacheDown "nope" exKey "A" true (exLimiter 2)).1.1
    = false
  ∧ ∀ tag' email' ip' tcp' info,
      Load tag' (Inbounds (exLimiter 2)) = Some info →
      Reject (GetUserBucket ∅ cacheDown tag' email' ip' tcp' (exLimiter 2)).1.1
        = false →
      determineRate (NodeSpeedLimit info) (SpeedLimit (userQuota info email'))
        = 0%N →
      (GetUserBucket ∅ cacheDown tag' email' ip' tcp' (exLimiter 2)).1.1
      = (GetUserBucket ∅ cacheDown "nope" exKey "A" true (exLimiter 2)).1.1.
Proof.
  apply (unknown_inbound_results ∅ cacheDown "nope" exKey "A" true
           [exUser 2] ∅ 0 (exLimiter 2)).
  vm_compute. reflexivity.
Defined.

(** On an unknown tag [GetUserBucket] answers exactly as it does for a
    registered inbound without rate limit, and [ResetOtraffic] reports no
    error. *)
Lemma unknown_inbound_not_distinct :
  (GetUserBucket ∅ cacheDown "nope" exKey "A" true (exLimiter 2)).1.1
  = (GetUserBucket ∅ cacheDown "t" exKey "A" true (exLimiter 2)).1.1
  ∧ Load "nope" (Inbounds (exLimiter 2)) = None
  ∧ is_Some (Load "t" (Inbounds (exLimiter 2)))
  ∧ ResetOtraffic "nope" (exLimiter 2) = (exLimiter 2, None).
Proof. vm_compute. repeat split. eauto. Qed.

(** ** Device limit *)

Lemma userQuota_same i i' email :
  UserInfoMap i' = UserInfoMap i → userQuota i' email = userQuota i email.
Proof. unfold userQuota. by intros ->. Qed.

Lemma onlineSet_same i i' email :
  UserOnlineIP i' = UserOnlineIP i → onlineSet i' email = onlineSet i email.
Proof. unfold onlineSet. by intros ->. Qed.

(** C1. A connection-oriented attempt on a registered inbound from an IP
    that is new to the user's online set counts the set size after
    registration plus the alive-list size.  When the classification is not
    pinned, the device limit is positive and the count exceeds it, the call
    is rejected and the online sets are as before the call.  Otherwise the
    IP is registered with the user's UID and the local check lets the
    attempt pass: the call is rejected exactly when the global ledger is
    enabled and rejects.  With device limit 2, no alive list and no global
    ledger, A and B are admitted, C is rejected, A is admitted again and
    the set holds A and B only. *)
Theorem GetUserBucket_device_limit :
  (∀ (alive : gmap Z (list string)) (cacheGet : string → GetResult)
     (tag email ip : string) (l : Limiter) (info : InboundInfo),
     Load tag (Inbounds l) = Some info →
     registered info email ip = None →
     ∃ r info' ev,
       GetUserBucket alive cacheGet tag email ip true l
         = (r, put_inbound tag info' l, ev)
       ∧ if decide (ipAllowed ip (GetUserAliveIPs alive (UID (userQuota info email))) ≠ 1
                    ∧ 0 < DeviceLimit (userQuota info email)
                    ∧ DeviceLimit (userQuota info email)
                      < len (onlineSet info email) + 1
                        + len (GetUserAliveIPs alive (UID (userQuota info email))))
         then r = (None, false, true) ∧ UserOnlineIP info' = UserOnlineIP info
         else registered info' email ip = Some (UID (userQuota info email))
              ∧ onlineSet info' email
                = Store ip (UID (userQuota info email)) (onlineSet info email)
              ∧ Reject r = globalReject cacheGet info email ip
              ∧ (GlobalLimit info = None → Reject r = false))
  ∧ (∀ cacheGet,
       (admitSeq ∅ cacheGet "t" exKey ["A"; "B"; "C"; "A"] (exLimiter 2)).1
       = [false; false; true; false]
       ∧ (fun i => onlineSet i exKey) <$>
           Load "t" (Inbounds
             (admitSeq ∅ cacheGet "t" exKey ["A"; "B"; "C"; "A"] (exLimiter 2)).2)
         = Some [("A", 7); ("B", 7)]).
Proof.
  split; [|intros cacheGet; vm_compute; done].
  intros alive cacheGet tag email ip l info Hl Hreg.
  destruct (GetUserBucket_known alive cacheGet tag email ip true l info Hl)
    as (r & info' & ev & Heq & HR & HO & HA & Hsame & Hrej & _).
  exists r, info', ev. split; [done|].
  rewrite (localLimit_new alive _ _ _ _ _ Hreg) in HR, HO.
  case_decide; simpl in HR, HO.
  - split; [by apply Hrej | done].
  - assert (Hset : onlineSet info' email
                   = Store ip (UID (userQuota info email)) (onlineSet info email)).
    { unfold onlineSet at 1. rewrite HO. simpl. by rewrite Load_Store_eq. }
    unfold registered. rewrite Hset, Load_Store_eq.
    repeat split; try done.
    intros HG. rewrite HR. unfold globalReject. by rewrite HG.
Qed.

Lemma GetUserBucket_device_limit_witness :
  ∃ r info' ev,
    GetUserBucket ∅ cacheDown "t" exKey "C" true exLimiterAB
      = (r, put_inbound "t" info' exLimiterAB, ev)
    ∧ r = (None, false, true)
    ∧ UserOnlineIP info' = UserOnlineIP exInfoAB.
Proof.
  destruct (proj1 GetUserBucket_device_limit ∅ cacheDown "t" exKey "C"
              exLimiterAB exInfoAB eq_refl eq_refl)
    as (r & info' & ev & Hcall & Hres).
  exists r, info', ev. split; [exact Hcall|].
  rewrite decide_True in Hres; [exact Hres|].
  vm_compute. repeat split; discriminate.
Defined.

(** With the global ledger enabled and its entry over the limit, the first
    IP of a user passes the local check (count 1, limit 2) and is
    registered, yet the call is rejected. *)
Lemma GetUserBucket_rejected_below_limit :
  (fun i => registered i exKey "A") <$> Load "t" (Inbounds (exGlobalLimiter 2))
  = Some None
  ∧ (GetUserBucket ∅ cacheFull "t" exKey "A" true (exGlobalLimiter 2)).1.1
    = (None, false, true)
  ∧ (fun i => onlineSet i exKey) <$>
      Load "t" (Inbounds
        (GetUserBucket ∅ cacheFull "t" exKey "A" true (exGlobalLimiter 2)).1.2)
    = Some [("A", 7)].
Proof. vm_compute. done. Qed.

(** C3. A connection-oriented attempt from an IP of the user's alive list is
    never rejected by the local device check, whatever the online set holds:
    the call is rejected exactly when the global ledger is enabled and
    rejects.  The IP is cached as pinned and is bound in the online set like
    any other IP, and a later attempt of the user from a new IP outside the
    alive list is rejected once the set size after registration plus the
    alive-list size exceeds a positive device limit. *)
Theorem GetUserBucket_pinned (alive : gmap Z (list string))
    (cacheGet : string → GetResult) (tag email ip : string) (l : Limiter)
    (info : InboundInfo) :
  Load tag (Inbounds l) = Some info →
  ip ∈ GetUserAliveIPs alive (UID (userQuota info email)) →
  ∃ r info' ev,
    GetUserBucket alive cacheGet tag email ip true l
      = (r, put_inbound tag info' l, ev)
    ∧ Reject r = globalReject cacheGet info email ip
    ∧ (GlobalLimit info = None → Reject r = false)
    ∧ Load ip (ipAllowedMap info') = Some 1
    ∧ is_Some (registered info' email ip)
    ∧ len (onlineSet info' email)
      = len (onlineSet info email)
        + match registered info email ip with Some _ => 0 | None => 1 end
    ∧ ∀ cacheGet' ip',
        registered info' email ip' = None →
        ip' ∉ GetUserAliveIPs alive (UID (userQuota info email)) →
        0 < DeviceLimit (userQuota info email) →
        DeviceLimit (userQuota info email)
          < len (onlineSet info' email) + 1
            + len (GetUserAliveIPs alive (UID (userQuota info email))) →
        Reject (GetUserBucket alive cacheGet' tag email ip' true
                  (put_inbound tag info' l)).1.1 = true.
Proof.
  intros Hl Hpin.
  destruct (GetUserBucket_known alive cacheGet tag email ip true l info Hl)
    as (r & info' & ev & Heq & HR & HO & HA & Hsame & _).
  exists r, info', ev. split; [done|].
  pose proof Hpin as Hst. apply ipAllowed_pinned in Hst.
  assert (Hloc :
    (localLimit alive info email ip (UID (userQuota info email))
       (DeviceLimit (userQuota info email))).1 = false
    ∧ ipAllowedMap info' = Store ip 1 (ipAllowedMap info)
    ∧ onlineSet info' email
      = match registered info email ip with
        | Some _ => onlineSet info email
        | None => Store ip (UID (userQuota info email)) (onlineSet info email)
        end).
  { destruct (registered info email ip) as [v|] eqn:Hreg.
    - rewrite (localLimit_member alive _ _ _ _ _ _ Hreg) in HO, HA |- *.
      rewrite Hst in HO, HA |- *. simpl in *.
      split; [first [done | apply bool_decide_eq_false_2; intros [? _]; lia]|].
      split; [done | by apply onlineSet_same].
    - rewrite (localLimit_new alive _ _ _ _ _ Hreg) in HO, HA |- *.
      rewrite Hst in HO, HA |- *.
      rewrite decide_False in HO, HA |- * by (intros [? _]; done).
      simpl in *. split; [done|]. split; [done|].
      unfold onlineSet at 1. rewrite HO. by rewrite Load_Store_eq. }
  destruct Hloc as (Hloc1 & Hmap & Hset).
  rewrite Hloc1 in HR. simpl in HR.
  split; [done|].
  split; [intros HG; rewrite HR; unfold globalReject; by rewrite HG|].
  split; [rewrite Hmap; apply Load_Store_eq|].
  split; [|split].
  - unfold registered at 1. rewrite Hset.
    destruct (registered info email ip) as [v|] eqn:Hreg; [by eauto|].
    rewrite Load_Store_eq. eauto.
  - rewrite Hset. destruct (registered info email ip) as [v|] eqn:Hreg; [lia|].
    by apply length_Store_new.
  - intros cacheGet' ip' Hnew Hout Hpos Hover.
    destruct Hsame as (_ & _ & HU & _).
    apply (GetUserBucket_over_limit alive cacheGet' tag email ip' _ info').
    + apply Load_put_inbound_eq.
    + done.
    + rewrite (userQuota_same _ _ _ HU). by rewrite <- ipAllowed_pinned.
    + by rewrite (userQuota_same _ _ _ HU).
    + by rewrite (userQuota_same _ _ _ HU).
Qed.

Lemma GetUserBucket_pinned_witness :
  ∃ r info' ev,
    GetUserBucket exAlive cacheDown "t" exKey "P" true (exLimiter 1)
      = (r, put_inbound "t" info' (exLimiter 1), ev)
    ∧ Reject r = false
    ∧ Load "P" (ipAllowedMap info') = Some 1
    ∧ is_Some (registered info' exKey "P").
Proof.
  destruct (GetUserBucket_pinned exAlive cacheDown "t" exKey "P" (exLimiter 1)
              (exInfo 1) eq_refl)
    as (r & info' & ev & Hcall & _ & Hfree & Hcache & Hreg & _).
  - apply (bool_decide_unpack _). vm_compute. exact I.
  - exists r, info', ev. repeat split; [exact Hcall | | exact Hcache | exact Hreg].
    apply Hfree. reflexivity.
Defined.

(** A pinned IP is rejected when the global ledger says so, and a pinned IP
    that is connected does count: with device limit 3 and the alive list
    ["P"], the attempt from C is rejected after P and B, and admitted after
    B alone. *)
Lemma pinned_ip_rejected_and_counted :
  GetUserAliveIPs exAlive 7 = ["P"]
  ∧ Reject (GetUserBucket exAlive cacheFull "t" exKey "P" true
              (exGlobalLimiter 2)).1.1 = true
  ∧ (admitSeq exAlive cacheDown "t" exKey ["P"; "B"; "C"] (exLimiter 3)).1
    = [false; false; true]
  ∧ (admitSeq exAlive cacheDown "t" exKey ["B"; "C"] (exLimiter 3)).1
    = [false; false].
Proof. vm_compute. done. Qed.

(** ** Online/traffic reconciler *)

Section Reconciler.
Variables (userTraffic PrevT : gmap Z Z) (PrevO : gmap Z string) (T : Z).

Lemma cycle_step_refl c : cycle_step PrevO c c [].
Proof.
  unfold cycle_step. simpl. rewrite app_nil_r, orb_false_r. done.
Qed.

Lemma cycle_step_trans c1 c2 c3 n1 n2 :
  cycle_step PrevO c1 c2 n1 → cycle_step PrevO c2 c3 n2 →
  cycle_step PrevO c1 c3 (n1 ++ n2)%list.
Proof.
  intros (H1 & H2 & H3 & H4) (G1 & G2 & G3 & G4). unfold cycle_step.
  rewrite G1, H1, G2, H2, G3, H3, G4, H4, existsb_app, foldl_app.
  by rewrite app_assoc, orb_assoc.
Qed.

Lemma from_ips_nil amap : from_ips amap userTraffic PrevT T [] [].
Proof.
  split.
  - intros u Hu. by apply elem_of_nil in Hu.
  - intros ip uid a Hin. by apply elem_of_nil in Hin.
Qed.

Lemma from_ips_app amap m1 m2 n1 n2 :
  from_ips amap userTraffic PrevT T m1 n1 →
  from_ips amap userTraffic PrevT T m2 n2 →
  from_ips amap userTraffic PrevT T (m1 ++ m2)%list (n1 ++ n2)%list.
Proof.
  intros [S1 C1] [S2 C2]. split.
  - intros u [Hu|Hu]%elem_of_app.
    + destruct (S1 u Hu) as (ip & ? & ? & ?). exists ip.
      rewrite elem_of_app. auto.
    + destruct (S2 u Hu) as (ip & ? & ? & ?). exists ip.
      rewrite elem_of_app. auto.
  - intros ip uid a [Hin|Hin]%elem_of_app Ha Hne; rewrite elem_of_app.
    + left. by eapply C1.
    + right. by eapply C2.
Qed.

(** One run of the inner callback reports the IP, or nothing when the
    classification in force is 2. *)
Lemma visit_ip_step st ip uid :
  ∃ new,
    cycle_step PrevO st.1 (visit_ip userTraffic PrevT PrevO T st (ip, uid)).1 new
    ∧ from_ips (ipAllowedMap (inbound st.1)) userTraffic PrevT T [(ip, uid)] new
    ∧ UserOnlineIP (inbound (visit_ip userTraffic PrevT PrevO T st (ip, uid)).1)
      = UserOnlineIP (inbound st.1)
    ∧ (visit_ip userTraffic PrevT PrevO T st (ip, uid)).2
      = {| l_uid := uid; l_X := delta userTraffic PrevT uid;
           l_A := default (l_A st.2) (Load ip (ipAllowedMap (inbound st.1)));
           l_pip := atEmpty PrevO uid |}.
Proof.
  destruct st as [c loc]. unfold visit_ip. simpl.
  set (amap := ipAllowedMap (inbound c)).
  destruct (Load ip amap) as [a|] eqn:Ha; simpl.
  - destruct (decide (a ≠ 2)) as [Hne|Heq]; simpl.
    + eexists [_]. split; [|split; [|done]].
      * unfold cycle_step, changed, reportedIP. simpl.
        rewrite orb_false_r. repeat split.
        destruct (diff c); simpl; case_decide.
        all: try done.
        -- by rewrite bool_decide_eq_true_2.
        -- rewrite bool_decide_eq_false_2; [done|]. by intros ?.
      * split.
        -- intros u ->%list_elem_of_singleton. exists ip. simpl.
           split; [left|]. split; [congruence | done].
        -- intros ip' uid' a' Hin%list_elem_of_singleton Ha' Hne'.
           simplify_eq. apply list_elem_of_singleton. done.
    + exists []. split; [|split; [|done]].
      * unfold cycle_step. simpl. by rewrite app_nil_r, orb_false_r.
      * split.
        -- intros u Hu. by apply elem_of_nil in Hu.
        -- intros ip' uid' a' Hin%list_elem_of_singleton Ha' Hne'.
           simplify_eq. apply dec_stable in Heq. congruence.
  - destruct (decide (l_A loc ≠ 2)) as [Hne|Heq]; simpl.
    + eexists [_]. split; [|split; [|done]].
      * unfold cycle_step, changed, reportedIP. simpl.
        rewrite orb_false_r. repeat split.
        destruct (diff c); simpl; case_decide.
        all: try done.
        -- by rewrite bool_decide_eq_true_2.
        -- rewrite bool_decide_eq_false_2; [done|]. by intros ?.
      * split.
        -- intros u ->%list_elem_of_singleton. exists ip. simpl.
           split; [left|]. split; [congruence | done].
        -- intros ip' uid' a' Hin%list_elem_of_singleton Ha' Hne'.
           simplify_eq.
    + exists []. split; [|split; [|done]].
      * unfold cycle_step. simpl. by rewrite app_nil_r, orb_false_r.
      * split.
        -- intros u Hu. by apply elem_of_nil in Hu.
        -- intros ip' uid' a' Hin%list_elem_of_singleton Ha' Hne'.
           simplify_eq.
Qed.

(** The inner [Range] over the IPs of one user. *)
Lemma visit_ip_fold ipMap : ∀ st,
  ∃ new,
    cycle_step PrevO st.1
      (foldl (visit_ip userTraffic PrevT PrevO T) st ipMap).1 new
    ∧ from_ips (ipAllowedMap (inbound st.1)) userTraffic PrevT T ipMap new
    ∧ UserOnlineIP
        (inbound (foldl (visit_ip userTraffic PrevT PrevO T) st ipMap).1)
      = UserOnlineIP (inbound st.1).
Proof.
  induction ipMap as [|[ip uid] rest IH]; intros st; simpl.
  - exists []. split; [apply cycle_step_refl|]. split; [apply from_ips_nil|done].
  - destruct (visit_ip_step st ip uid) as (n1 & Hs1 & Hf1 & Hu1 & _).
    destruct (IH (visit_ip userTraffic PrevT PrevO T st (ip, uid)))
      as (n2 & Hs2 & Hf2 & Hu2).
    exists (n1 ++ n2)%list. split; [by eapply cycle_step_trans|].
    split; [|congruence].
    destruct Hs1 as (_ & _ & _ & Hmap). rewrite Hmap in Hf2.
    by apply (from_ips_app _ [(ip, uid)] rest).
Qed.

(** One run of the outer callback. *)
Lemma visit_user_step c email ipMap :
  ∃ new,
    cycle_step PrevO c (visit_user userTraffic PrevT PrevO T c (email, ipMap)) new
    ∧ from_ips (ipAllowedMap (inbound c)) userTraffic PrevT T ipMap new.
Proof.
  unfold visit_user. simpl.
  destruct (visit_ip_fold ipMap (c, Locals0)) as (new & Hs & Hf & _).
  exists new. split; [|done].
  case_match; [|done].
  destruct Hs as (H1 & H2 & H3 & H4). by unfold cycle_step.
Qed.

(** The outer [Range] over the users of the online IP sets. *)
Lemma visit_user_fold online : ∀ c,
  ∃ new,
    cycle_step PrevO c (foldl (visit_user userTraffic PrevT PrevO T) c online) new
    ∧ (∀ u, u ∈ new →
         ∃ email ipMap ip,
           (email, ipMap) ∈ online ∧ (ip, api.OnlineUID u) ∈ ipMap
           ∧ Load ip (ipAllowedMap (inbound c)) ≠ Some 2
           ∧ api.IP u = reportedIP userTraffic PrevT T (api.OnlineUID u) ip)
    ∧ (∀ email ipMap ip uid a,
         (email, ipMap) ∈ online → (ip, uid) ∈ ipMap →
         Load ip (ipAllowedMap (inbound c)) = Some a → a ≠ 2 →
         {| api.OnlineUID := uid;
            api.IP := reportedIP userTraffic PrevT T uid ip |} ∈ new).
Proof.
  induction online as [|[email ipMap] rest IH]; intros c; simpl.
  - exists []. split; [apply cycle_step_refl|]. split.
    + intros u Hu. by apply elem_of_nil in Hu.
    + intros ????? Hin. by apply elem_of_nil in Hin.
  - destruct (visit_user_step c email ipMap) as (n1 & Hs1 & Hsound1 & Hcompl1).
    destruct (IH (visit_user userTraffic PrevT PrevO T c (email, ipMap)))
      as (n2 & Hs2 & Hsound2 & Hcompl2).
    pose proof Hs1 as (_ & _ & _ & Hmap). rewrite Hmap in Hsound2, Hcompl2.
    exists (n1 ++ n2)%list. split; [by eapply cycle_step_trans|]. split.
    + intros u [Hu|Hu]%elem_of_app.
      * destruct (Hsound1 u Hu) as (ip & ? & ? & ?).
        exists email, ipMap, ip. split; [left|done].
      * destruct (Hsound2 u Hu) as (e & m & ip & ? & ? & ? & ?).
        exists e, m, ip. split; [by right|done].
    + intros e m ip uid a [Heq|Hin]%elem_of_cons Hip Ha Hne;
        rewrite elem_of_app.
      * simplify_eq. left. by eapply Hcompl1.
      * right. by eapply Hcompl2.
Qed.
End Reconciler.

Lemma reportedIP_inactive userTraffic PrevT T uid ip :
  delta userTraffic PrevT uid ≤ T → reportedIP userTraffic PrevT T uid ip = "".
Proof.
  intros H. unfold reportedIP.
  destruct (Z.leb_spec (delta userTraffic PrevT uid) T); [done | lia].
Qed.

Lemma reportedIP_active userTraffic PrevT T uid ip :
  T < delta userTraffic PrevT uid → reportedIP userTraffic PrevT T uid ip = ip.
Proof.
  intros H. unfold reportedIP.
  destruct (Z.leb_spec (delta userTraffic PrevT uid) T); [lia | done].
Qed.

(** Within [int64], counters that do not decrease give their plain
    difference. *)
Lemma delta_exact userTraffic PrevT uid :
  0 ≤ at0 PrevT uid ≤ at0 userTraffic uid → at0 userTraffic uid < 2 ^ 63 →
  delta userTraffic PrevT uid = at0 userTraffic uid - at0 PrevT uid.
Proof.
  intros H1 H2. unfold delta, wrap64.
  rewrite Z.mod_small; lia.
Qed.

(** A cycle of the reconciler on a registered inbound: the entries it
    returns, the flag, and the snapshot it leaves. *)
Lemma GetOnlineDevice_known tag userTraffic T l info :
  Load tag (Inbounds l) = Some info →
  ∃ users info',
    GetOnlineDevice tag userTraffic T l
      = ((Some users, existsb (changed (snapshot (OnlineDevice info))) users, None),
         put_inbound tag info' l)
    ∧ OnlineDevice info' = foldl storeUser [] users
    ∧ (∀ u, u ∈ users →
         ∃ email ipMap ip,
           (email, ipMap) ∈ UserOnlineIP info ∧ (ip, api.OnlineUID u) ∈ ipMap
           ∧ Load ip (ipAllowedMap info) ≠ Some 2
           ∧ api.IP u = reportedIP userTraffic (snapshot (Otraffic info)) T
                          (api.OnlineUID u) ip)
    ∧ (∀ email ipMap ip uid a,
         (email, ipMap) ∈ UserOnlineIP info → (ip, uid) ∈ ipMap →
         Load ip (ipAllowedMap info) = Some a → a ≠ 2 →
         {| api.OnlineUID := uid;
            api.IP := reportedIP userTraffic (snapshot (Otraffic info)) T uid ip |}
         ∈ users).
Proof.
  intros Hl. unfold GetOnlineDevice. rewrite Hl. simpl.
  match goal with
  | |- context [foldl (visit_user ?ut ?pt ?po ?t) ?c ?on] =>
      destruct (visit_user_fold ut pt po t on c)
        as (new & (H1 & H2 & H3 & H4) & Hsound & Hcompl)
  end.
  simpl in *. exists new. eexists. rewrite H1, H2. split; [done|].
  split; [done|]. split; [exact Hsound | exact Hcompl].
Qed.

(** C6. In a cycle of [GetOnlineDevice] on a registered inbound, a bound IP
    whose cached classification is not unpinned (0 or 1) is reported with
    the UID it is bound with: with the empty IP when the traffic delta of
    that UID is at most [T], with the IP itself when it is above.  Nothing
    is reported for an IP whose cached classification is unpinned (2):
    every returned entry stems from a bound IP that is not so classified. *)
Theorem GetOnlineDevice_activity (tag : string) (userTraffic : gmap Z Z)
    (T : Z) (l : Limiter) (info : InboundInfo) :
  Load tag (Inbounds l) = Some info →
  ∃ users flag l',
    GetOnlineDevice tag userTraffic T l = ((Some users, flag, None), l')
    ∧ (∀ email ipMap ip uid a,
         (email, ipMap) ∈ UserOnlineIP info → (ip, uid) ∈ ipMap →
         Load ip (ipAllowedMap info) = Some a → a ≠ 2 →
         (delta userTraffic (snapshot (Otraffic info)) uid ≤ T →
            {| api.OnlineUID := uid; api.IP := "" |} ∈ users)
         ∧ (T < delta userTraffic (snapshot (Otraffic info)) uid →
            {| api.OnlineUID := uid; api.IP := ip |} ∈ users))
    ∧ (∀ u, u ∈ users →
         ∃ email ipMap ip,
           (email, ipMap) ∈ UserOnlineIP info ∧ (ip, api.OnlineUID u) ∈ ipMap
           ∧ Load ip (ipAllowedMap info) ≠ Some 2
           ∧ api.IP u =
               if delta userTraffic (snapshot (Otraffic info)) (api.OnlineUID u)
                  <=? T
               then "" else ip).
Proof.
  intros Hl.
  destruct (GetOnlineDevice_known tag userTraffic T l info Hl)
    as (users & info' & Heq & _ & Hsound & Hcompl).
  eexists users, _, _. split; [exact Heq|]. split; [|exact Hsound].
  intros email ipMap ip uid a He Hip Ha Hne.
  pose proof (Hcompl email ipMap ip uid a He Hip Ha Hne) as Hin.
  split; intros Hd.
  - by rewrite reportedIP_inactive in Hin.
  - by rewrite reportedIP_active in Hin.
Qed.

Lemma GetOnlineDevice_activity_witness :
  ∃ users flag l',
    GetOnlineDevice "t" {[ 7 := 5 ]} 10 exLimiterAB
      = ((Some users, flag, None), l')
    ∧ {| api.OnlineUID := 7; api.IP := "" |} ∈ users.
Proof.
  destruct (GetOnlineDevice_activity "t" {[ 7 := 5 ]} 10 exLimiterAB exInfoAB
              eq_refl)
    as (users & flag & l' & Hcall & Hreported & _).
  exists users, flag, l'. split; [exact Hcall|].
  apply (Hreported exKey [("A", 7); ("B", 7)] "A" 7 0).
  - apply (bool_decide_unpack _). vm_compute. exact I.
  - apply (bool_decide_unpack _). vm_compute. exact I.
  - reflexivity.
  - discriminate.
  - vm_compute. discriminate.
Defined.

(** A user whose only IP is classified unpinned is left out of the list,
    whether the delta is within the threshold (5 against 10) or above it
    (100 against 10); a user on a pinned IP with a delta within the
    threshold is reported with the empty IP, not with the bound one. *)
Lemma GetOnlineDevice_unpinned_omitted :
  (fun i => (UserOnlineIP i, ipAllowedMap i)) <$>
    Load "t" (Inbounds (admitSeq exAlive cacheDown "t" exKey ["Q"] (exLimiter 3)).2)
  = Some ([(exKey, [("Q", 7)])], [("Q", 2)])
  ∧ (GetOnlineDevice "t" {[ 7 := 5 ]} 10
       (admitSeq exAlive cacheDown "t" exKey ["Q"] (exLimiter 3)).2).1
    = (Some [], false, None)
  ∧ (GetOnlineDevice "t" {[ 7 := 100 ]} 10
       (admitSeq exAlive cacheDown "t" exKey ["Q"] (exLimiter 3)).2).1
    = (Some [], false, None)
  ∧ (fun i => (UserOnlineIP i, ipAllowedMap i)) <$>
      Load "t" (Inbounds (admitSeq exAlive cacheDown "t" exKey ["P"] (exLimiter 3)).2)
    = Some ([(exKey, [("P", 7)])], [("P", 1)])
  ∧ (GetOnlineDevice "t" {[ 7 := 5 ]} 10
       (admitSeq exAlive cacheDown "t" exKey ["P"] (exLimiter 3)).2).1
    = (Some [ {| api.OnlineUID := 7; api.IP := "" |} ], false, None).
Proof. vm_compute. done. Qed.

(** ** The snapshot of the previous cycle *)

Section SnapshotFacts.
Context {K V : Type} `{EqDecision K}.
Implicit Types (k : K) (v : V) (m : SyncMap K V).

Lemma Load_app k m1 m2 :
  Load k (m1 ++ m2)%list
  = match Load k m1 with Some v => Some v | None => Load k m2 end.
Proof.
  induction m1 as [|[k' v'] m1 IH]; simpl; [done|]. by case_decide.
Qed.

Lemma keys_Store k v m :
  keys (Store k v m)
  = match Load k m with Some _ => keys m | None => (keys m ++ [k])%list end.
Proof.
  unfold keys. induction m as [|[k' v'] m IH]; simpl; [done|].
  case_decide; simpl; [by subst|].
  destruct (Load k m); simpl; f_equal; exact IH.
Qed.

Lemma NoDup_keys_Store k v m : NoDup (keys m) → NoDup (keys (Store k v m)).
Proof.
  intros Hnd. rewrite keys_Store.
  destruct (Load k m) eqn:Hl; [done|].
  apply NoDup_app. split; [done|]. split; [|apply NoDup_singleton].
  intros x Hx ->%list_elem_of_singleton. by apply Load_None_keys in Hl.
Qed.
End SnapshotFacts.

Lemma snapshot_snoc {V} (m : SyncMap Z V) k v :
  snapshot (m ++ [(k, v)])%list = <[k := v]> (snapshot m).
Proof. unfold snapshot. by rewrite foldl_app. Qed.

(** On a map without repeated keys the copy made by [Range] reads as
    [Load] does. *)
Lemma snapshot_Load {V} (m : SyncMap Z V) k :
  NoDup (keys m) → snapshot m !! k = Load k m.
Proof.
  induction m as [|[k' v'] m IH] using rev_ind; intros Hnd; [done|].
  unfold keys in Hnd. rewrite fmap_app in Hnd. apply NoDup_app in Hnd as (Hnd & Hfresh & _).
  rewrite snapshot_snoc, Load_app. simpl.
  destruct (decide (k' = k)) as [->|Hne].
  - rewrite lookup_insert_eq.
    assert (Load k m = None) as ->; [|done].
    apply Load_None_keys. intros Hin. apply (Hfresh k Hin). simpl. left.
  - rewrite lookup_insert_ne by done. rewrite (IH Hnd).
    by destruct (Load k m).
Qed.


Lemma storeUsers_Load_other users uid : ∀ m,
  uid ∉ api.OnlineUID <$> users →
  Load uid (foldl storeUser m users) = Load uid m.
Proof.
  induction users as [|u users IH]; intros m Hnotin; simpl; [done|].
  rewrite fmap_cons in Hnotin. apply not_elem_of_cons in Hnotin as [Hne Hnotin].
  rewrite (IH _ Hnotin). unfold storeUser. by rewrite Load_Store_ne.
Qed.

(** When every UID is reported once, the snapshot left by a cycle holds
    for each entry the IP it was reported with. *)
Lemma storeUsers_Load users : ∀ m u,
  NoDup (api.OnlineUID <$> users) → u ∈ users →
  Load (api.OnlineUID u) (foldl storeUser m users) = Some (api.IP u).
Proof.
  induction users as [|u0 users IH]; intros m u Hnd Hin; simpl.
  - by apply elem_of_nil in Hin.
  - rewrite fmap_cons in Hnd. apply NoDup_cons in Hnd as [Hfresh Hnd].
    apply elem_of_cons in Hin as [->|Hin].
    + rewrite (storeUsers_Load_other _ _ _ Hfresh). unfold storeUser.
      apply Load_Store_eq.
    + by apply IH.
Qed.






(** ** Global device ledger *)

Lemma AddInboundLimiter_expiry tag n users g l :
  Enable g = true →
  GlobalLimit <$> Load tag (Inbounds (AddInboundLimiter tag n users (Some g) l).1)
  = Some (Some (g, {| expiration := Expiry g |})).
Proof.
  intros He. unfold AddInboundLimiter. simpl.
  rewrite Load_Store_eq. simpl. by rewrite He.
Qed.

(** C4. When the ledger lookup gives no decoded entry, [globalLimit] does
    not reject.  On a miss it starts one [pushIP] of the entry that maps the
    IP to the UID, and that write, when [Set] succeeds, stores the entry
    with the expiration of the cache handle, which [AddInboundLimiter] sets
    to the configured expiry; when [Set] fails it is only logged.  On any
    other error the call logs and starts nothing.  A connection is then
    never rejected by the global ledger. *)
Theorem globalLimit_fail_open (cacheGet : string → GetResult)
    (info : InboundInfo) (email ip : string) (uid deviceLimit : Z)
    (config : GlobalDeviceLimitConfig) (h : Marshaler) :
  GlobalLimit info = Some (config, h) →
  (∀ ipMap,
     cacheGet (Replace1 email (Tag info) (pretty deviceLimit)) ≠ GetHit ipMap) →
  (globalLimit cacheGet info email uid ip deviceLimit).1 = false
  ∧ (cacheGet (Replace1 email (Tag info) (pretty deviceLimit)) = GetNotFound →
       (globalLimit cacheGet info email uid ip deviceLimit).2
       = [GoPushIP (Replace1 email (Tag info) (pretty deviceLimit))
            {[ ip := uid ]}])
  ∧ (cacheGet (Replace1 email (Tag info) (pretty deviceLimit)) = GetFailed →
       (globalLimit cacheGet info email uid ip deviceLimit).2
       = [LogErrorInner "cache service"])
  ∧ (∀ key ipMap ledger,
       pushIP info key ipMap true ledger
       = (<[key := (ipMap, expiration h)]> ledger, [])
       ∧ pushIP info key ipMap false ledger
         = (ledger, [LogErrorInner "cache service"]))
  ∧ (∀ tag n users g l,
       Enable g = true →
       GlobalLimit <$>
         Load tag (Inbounds (AddInboundLimiter tag n users (Some g) l).1)
       = Some (Some (g, {| expiration := Expiry g |})))
  ∧ (uid = UID (userQuota info email) →
     deviceLimit = DeviceLimit (userQuota info email) →
     globalReject cacheGet info email ip = false).
Proof.
  intros HG Hmiss.
  assert (Hrej : (globalLimit cacheGet info email uid ip deviceLimit).1 = false).
  { unfold globalLimit.
    destruct (cacheGet (Replace1 email (Tag info) (pretty deviceLimit)))
      as [m| |] eqn:Hc; [|done..]. by destruct (Hmiss m). }
  split; [exact Hrej|].
  split; [intros Hc; unfold globalLimit; by rewrite Hc|].
  split; [intros Hc; unfold globalLimit; by rewrite Hc|].
  split; [intros key ipMap ledger; unfold pushIP; by rewrite HG|].
  split; [intros; by apply AddInboundLimiter_expiry|].
  intros -> ->. unfold globalReject. rewrite HG, Hrej. apply andb_false_r.
Qed.

Lemma globalLimit_fail_open_witness :
  (globalLimit cacheMiss (exGlobalInfo 2) exKey 7 "A" 2).1 = false
  ∧ (globalLimit cacheMiss (exGlobalInfo 2) exKey 7 "A" 2).2
    = [GoPushIP "2|u@x|7" {[ "A" := 7 ]}]
  ∧ pushIP (exGlobalInfo 2) "2|u@x|7" {[ "A" := 7 ]} true ∅
    = ({[ "2|u@x|7" := ({[ "A" := 7 ]}, 60) ]}, []).
Proof.
  destruct (globalLimit_fail_open cacheMiss (exGlobalInfo 2) exKey "A" 7 2
              exConfig {| expiration := 60 |} eq_refl)
    as (Hrej & Hmiss & _ & Hpush & _).
  - intros ipMap. discriminate.
  - split; [exact Hrej|]. split; [exact (Hmiss eq_refl)|].
    exact (proj1 (Hpush "2|u@x|7" {[ "A" := 7 ]} ∅)).
Defined.

(** C5. When the ledger lookup gives a decoded entry, [globalLimit] rejects
    exactly when the device limit is positive and the entry holds more IPs
    than the limit; a rejection starts nothing.  Otherwise an IP that the
    entry lacks is merged in with the UID and one [pushIP] of the merged
    entry is started, and an IP that the entry has starts nothing. *)
Theorem globalLimit_hit (cacheGet : string → GetResult) (info : InboundInfo)
    (email ip : string) (uid deviceLimit : Z) (ipMap : gmap string Z) :
  cacheGet (Replace1 email (Tag info) (pretty deviceLimit)) = GetHit ipMap →
  ((globalLimit cacheGet info email uid ip deviceLimit).1 = true
   ↔ 0 < deviceLimit ∧ deviceLimit < Z.of_nat (size ipMap))
  ∧ (globalLimit cacheGet info email uid ip deviceLimit).2
    = if (globalLimit cacheGet info email uid ip deviceLimit).1 then []
      else match ipMap !! ip with
           | None => [GoPushIP (Replace1 email (Tag info) (pretty deviceLimit))
                        (<[ip := uid]> ipMap)]
           | Some _ => []
           end.
Proof.
  intros Hc. unfold globalLimit. rewrite Hc.
  destruct (Z.ltb_spec 0 deviceLimit), (Z.ltb_spec deviceLimit (Z.of_nat (size ipMap)));
    simpl.
  - split; [split; [done|lia] | done].
  - split; [destruct (ipMap !! ip); simpl; split; try done; lia|].
    by destruct (ipMap !! ip).
  - split; [destruct (ipMap !! ip); simpl; split; try done; lia|].
    by destruct (ipMap !! ip).
  - split; [destruct (ipMap !! ip); simpl; split; try done; lia|].
    by destruct (ipMap !! ip).
Qed.

Lemma globalLimit_hit_witness :
  ((globalLimit cacheFull (exGlobalInfo 2) exKey 7 "A" 2).1 = true
   ↔ 0 < 2 ∧ 2 < Z.of_nat (size ({[ "X" := 7; "Y" := 7; "Z" := 7 ]} : gmap string Z)))
  ∧ (globalLimit cacheFull (exGlobalInfo 2) exKey 7 "A" 2).2
    = if (globalLimit cacheFull (exGlobalInfo 2) exKey 7 "A" 2).1 then []
      else match ({[ "X" := 7; "Y" := 7; "Z" := 7 ]} : gmap string Z) !! "A" with
           | None => [GoPushIP (Replace1 exKey "t" (pretty 2))
                        (<["A" := 7]> {[ "X" := 7; "Y" := 7; "Z" := 7 ]})]
           | Some _ => []
           end.
Proof.
  apply (globalLimit_hit cacheFull (exGlobalInfo 2) exKey "A" 7 2
           {[ "X" := 7; "Y" := 7; "Z" := 7 ]}).
  reflexivity.
Defined.

(** A negative device limit is not zero and is exceeded by any entry, yet
    the attempt is not rejected: the new IP is merged in. *)
Lemma globalLimit_negative_limit_admits :
  -1 ≠ 0
  ∧ -1 < Z.of_nat (size ({[ "X" := 7 ]} : gmap string Z))
  ∧ globalLimit (fun _ => GetHit {[ "X" := 7 ]}) (exGlobalInfo (-1)) exKey 7 "A" (-1)
    = (false, [GoPushIP "-1|u@x|7" {[ "A" := 7; "X" := 7 ]}]).
Proof. split; [done|]. split; [vm_compute; done|]. vm_compute. done. Qed.

(** * Further properties of the limiter *)

(** ** Classification and effective rate *)

(** [ipAllowed] answers 0 exactly for an empty alive list, 1 exactly for an
    IP of the list, and 2 exactly for an IP outside a non-empty list. *)
Theorem ipAllowed_classification (ip : string) (aliveIPs : list string) :
  (ipAllowed ip aliveIPs = 0 ↔ aliveIPs = [])
  ∧ (ipAllowed ip aliveIPs = 1 ↔ ip ∈ aliveIPs)
  ∧ (ipAllowed ip aliveIPs = 2 ↔ aliveIPs ≠ [] ∧ ip ∉ aliveIPs)
  ∧ 0 ≤ ipAllowed ip aliveIPs ≤ 2.
Proof.
  split; [symmetry; apply ipAllowed_no_list|].
  split; [symmetry; apply ipAllowed_pinned|].
  split; [symmetry; apply ipAllowed_unpinned|].
  destruct (ipAllowed_range ip aliveIPs) as [->|[->| ->]]; lia.
Qed.

Lemma determineRate_cases a b :
  determineRate a b
  = if (a =? 0)%N then b else if (b =? 0)%N then a else N.min a b.
Proof.
  unfold determineRate.
  destruct (N.eqb_spec a 0) as [->|Ha], (N.eqb_spec b 0) as [->|Hb]; simpl.
  - done.
  - destruct (N.ltb_spec b 0); [lia|]. destruct (N.ltb_spec 0 b); [done|lia].
  - destruct (N.ltb_spec 0 a); [done|lia].
  - destruct (N.ltb_spec b a); [by rewrite N.min_r by lia|].
    destruct (N.ltb_spec a b); by rewrite N.min_l by lia.
Qed.

(** Combining caps with [determineRate] does not depend on their order or
    grouping, 0 (unlimited) is neutral, and the result never exceeds a
    non-zero cap. *)
Theorem determineRate_algebra (a b c : N) :
  determineRate a b = determineRate b a
  ∧ determineRate a (determineRate b c) = determineRate (determineRate a b) c
  ∧ determineRate a 0 = a
  ∧ determineRate 0 a = a
  ∧ determineRate a a = a
  ∧ (determineRate a b = a ∨ determineRate a b = b)
  ∧ (a = 0%N ∨ (determineRate a b ≤ a)%N)
  ∧ (b = 0%N ∨ (determineRate a b ≤ b)%N).
Proof.
  rewrite !determineRate_cases.
  destruct (N.eqb_spec a 0) as [->|Ha], (N.eqb_spec b 0) as [->|Hb],
    (N.eqb_spec c 0) as [->|Hc]; simpl;
    repeat match goal with
      | |- context [(?x =? 0)%N] => destruct (N.eqb_spec x 0); try lia
      end;
    repeat split; try lia; try (left; lia); try (right; lia).
Qed.

(** ** Registry operations *)

(** [DeleteInboundLimiter] reports no error, removes the inbound and leaves
    the others; a tag without inbound leaves the limiter as it is.
    Afterwards the tag is unknown to [GetUserBucket],
    [UpdateInboundLimiter] and [GetOnlineDevice]. *)
Theorem DeleteInboundLimiter_removes (alive : gmap Z (list string))
    (cacheGet : string → GetResult) (tag email ip : string) (tcp : bool)
    (users : list api.UserInfo) (userTraffic : gmap Z Z) (T : Z) (l : Limiter) :
  (DeleteInboundLimiter tag l).2 = None
  ∧ Load tag (Inbounds (DeleteInboundLimiter tag l).1) = None
  ∧ (∀ tag', tag ≠ tag' →
       Load tag' (Inbounds (DeleteInboundLimiter tag l).1) = Load tag' (Inbounds l))
  ∧ (Load tag (Inbounds l) = None → (DeleteInboundLimiter tag l).1 = l)
  ∧ GetUserBucket alive cacheGet tag email ip tcp (DeleteInboundLimiter tag l).1
    = ((None, false, false), (DeleteInboundLimiter tag l).1,
       [LogDebug "Get Inbound Limiter information failed"])
  ∧ UpdateInboundLimiter tag users (DeleteInboundLimiter tag l).1
    = ((DeleteInboundLimiter tag l).1, Some (no_such_inbound tag))
  ∧ GetOnlineDevice tag userTraffic T (DeleteInboundLimiter tag l).1
    = ((None, false, Some (no_such_inbound tag)), (DeleteInboundLimiter tag l).1).
Proof.
  unfold DeleteInboundLimiter. simpl.
  assert (Hgone : Load tag (Delete tag (Inbounds l)) = None)
    by apply Load_Delete_eq.
  split; [done|]. split; [done|].
  split; [intros; by apply Load_Delete_ne|].
  split; [intros Hl; destruct l as [m]; simpl in *; by rewrite Delete_absent|].
  unfold GetUserBucket, UpdateInboundLimiter, GetOnlineDevice. simpl.
  by rewrite Hgone.
Qed.

Lemma store_users_other tag users k : ∀ m,
  k ∉ userKeys tag users →
  Load k (foldl (fun m u =>
            Store (userKey tag (api.Email u) (api.UID u)) (to_UserInfo u) m)
          m users) = Load k m.
Proof.
  induction users as [|u users IH]; intros m Hk; simpl; [done|].
  unfold userKeys in Hk. rewrite fmap_cons in Hk.
  apply not_elem_of_cons in Hk as [Hne Hk].
  rewrite (IH _ Hk). by apply Load_Store_ne.
Qed.

Lemma store_users_listed tag users : ∀ m u,
  NoDup (userKeys tag users) → u ∈ users →
  Load (userKey tag (api.Email u) (api.UID u))
    (foldl (fun m u =>
              Store (userKey tag (api.Email u) (api.UID u)) (to_UserInfo u) m)
           m users) = Some (to_UserInfo u).
Proof.
  induction users as [|u0 users IH]; intros m u Hnd Hin; simpl.
  - by apply elem_of_nil in Hin.
  - unfold userKeys in Hnd. rewrite fmap_cons in Hnd.
    apply NoDup_cons in Hnd as [Hfresh Hnd].
    apply elem_of_cons in Hin as [->|Hin]; [|by apply IH].
    rewrite store_users_other by done. apply Load_Store_eq.
Qed.

(** [AddInboundLimiter] reports no error and puts under the tag an inbound
    with the given speed cap and with empty bucket table, online sets,
    online snapshot, allow-status cache and traffic accumulator, whatever
    the tag held before; other inbounds stay.  The ledger handle exists
    exactly for an enabled configuration.  A listed user (one entry per
    key) is then read with its own quota, and a key outside the list with
    the zero quota. *)
Theorem AddInboundLimiter_fresh (tag : string) (n : N)
    (users : list api.UserInfo) (g : option GlobalDeviceLimitConfig)
    (l : Limiter) :
  ∃ fresh,
    AddInboundLimiter tag n users g l = (put_inbound tag fresh l, None)
    ∧ Load tag (Inbounds (put_inbound tag fresh l)) = Some fresh
    ∧ (∀ tag', tag ≠ tag' →
         Load tag' (Inbounds (put_inbound tag fresh l)) = Load tag' (Inbounds l))
    ∧ Tag fresh = tag ∧ NodeSpeedLimit fresh = n
    ∧ BucketHub fresh = [] ∧ UserOnlineIP fresh = [] ∧ OnlineDevice fresh = []
    ∧ ipAllowedMap fresh = [] ∧ Otraffic fresh = []
    ∧ (is_Some (GlobalLimit fresh) ↔ ∃ c, g = Some c ∧ Enable c = true)
    ∧ (NoDup (userKeys tag users) →
       ∀ u, u ∈ users →
         userQuota fresh (userKey tag (api.Email u) (api.UID u)) = to_UserInfo u)
    ∧ (∀ email, email ∉ userKeys tag users →
         userQuota fresh email = {| UID := 0; SpeedLimit := 0; DeviceLimit := 0 |}).
Proof.
  eexists. split; [reflexivity|]. simpl.
  split; [apply Load_Store_eq|].
  split; [intros; by apply Load_Store_ne|].
  do 7 (split; [done|]).
  split; [|split].
  - destruct g as [c|]; [destruct (Enable c) eqn:He|]; simpl.
    + split; [eauto | intros _; eauto].
    + split; [by intros [? ?] | intros (c' & ? & ?); simplify_eq; congruence].
    + split; [by intros [? ?] | by intros (c' & ? & ?)].
  - intros Hnd u Hin. unfold userQuota. simpl.
    by rewrite store_users_listed.
  - intros email Hout. unfold userQuota. simpl.
    by rewrite store_users_other.
Qed.

(** ** Connection setup: results, buckets and frames *)

Section BucketFacts.
Variable alive : gmap Z (list string).
Variable cacheGet : string → GetResult.


Lemma localLimit_unlimited i email ip uid dl :
  dl ≤ 0 →
  (localLimit alive i email ip uid dl).1 = false
  ∧ is_Some (registered (localLimit alive i email ip uid dl).2 email ip).
Proof.
  intros Hdl. destruct (registered i email ip) as [v|] eqn:Hreg.
  - rewrite (localLimit_member alive _ _ _ _ _ _ Hreg). simpl.
    split; [apply bool_decide_eq_false_2; lia|].
    unfold registered, onlineSet, cached in *. simpl. rewrite Hreg. eauto.
  - rewrite (localLimit_new alive _ _ _ _ _ Hreg).
    rewrite decide_False by lia. simpl. split; [done|].
    unfold registered, onlineSet. simpl. rewrite Load_Store_eq. simpl.
    rewrite Load_Store_eq. eauto.
Qed.
End BucketFacts.

(** Whatever the tag, a call returns a limiter exactly when it reports a
    speed limit, and a rejection carries neither.  On a registered inbound
    the call leaves the tag, the node speed cap, the user directory, the
    online snapshot, the traffic accumulator and the ledger handle as they
    are; other inbounds are never touched, and an unknown tag changes
    nothing. *)
Theorem GetUserBucket_result_and_frame (alive : gmap Z (list string))
    (cacheGet : string → GetResult) (tag email ip : string) (tcp : bool)
    (l : Limiter) :
  (is_Some (GetUserBucket alive cacheGet tag email ip tcp l).1.1.1.1
   ↔ (GetUserBucket alive cacheGet tag email ip tcp l).1.1.1.2 = true)
  ∧ (Reject (GetUserBucket alive cacheGet tag email ip tcp l).1.1 = true →
       (GetUserBucket alive cacheGet tag email ip tcp l).1.1 = (None, false, true))
  ∧ (∀ tag', tag ≠ tag' →
       Load tag' (Inbounds (GetUserBucket alive cacheGet tag email ip tcp l).1.2)
       = Load tag' (Inbounds l))
  ∧ match Load tag (Inbounds l) with
    | Some info =>
        ∃ info',
          Load tag (Inbounds (GetUserBucket alive cacheGet tag email ip tcp l).1.2)
          = Some info'
          ∧ same_outside_setup info info'
    | None => (GetUserBucket alive cacheGet tag email ip tcp l).1.2 = l
    end.
Proof.
  destruct (Load tag (Inbounds l)) as [info|] eqn:Hl.
  - destruct (GetUserBucket_known alive cacheGet tag email ip tcp l info Hl)
      as (r & info' & ev & -> & _ & _ & _ & Hsame & Hrej & Hacc).
    simpl. split; [|split; [|split]].
    + destruct (Reject r) eqn:HR.
      * destruct (Hrej eq_refl) as [-> _]. simpl. split; [by intros [? ?]|done].
      * rewrite (Hacc eq_refl).
        destruct (determineRate _ _); simpl;
          [split; [by intros [? ?]|done] | split; eauto].
    + intros HR. by destruct (Hrej HR).
    + intros tag' Hne. by apply Load_put_inbound_ne.
    + exists info'. split; [apply Load_put_inbound_eq | done].
  - unfold GetUserBucket. rewrite Hl. simpl.
    split; [split; [by intros [? ?]|done]|]. by repeat split.
Qed.



(** A connectionless attempt on a registered inbound skips the local device
    tracker: the online sets and the allow-status cache are as before, and
    the call is rejected exactly when the global ledger is enabled and
    rejects. *)
Theorem GetUserBucket_connectionless (alive : gmap Z (list string))
    (cacheGet : string → GetResult) (tag email ip : string) (l : Limiter)
    (info : InboundInfo) :
  Load tag (Inbounds l) = Some info →
  ∃ r info' ev,
    GetUserBucket alive cacheGet tag email ip false l
      = (r, put_inbound tag info' l, ev)
    ∧ UserOnlineIP info' = UserOnlineIP info
    ∧ ipAllowedMap info' = ipAllowedMap info
    ∧ Reject r = globalReject cacheGet info email ip
    ∧ (GlobalLimit info = None → Reject r = false).
Proof.
  intros Hl.
  destruct (GetUserBucket_known alive cacheGet tag email ip false l info Hl)
    as (r & info' & ev & Heq & HR & HO & HA & _).
  exists r, info', ev. simpl in HR. do 4 (split; [done|]).
  intros HG. rewrite HR. unfold globalReject. by rewrite HG.
Qed.

Lemma GetUserBucket_connectionless_witness :
  ∃ r info' ev,
    GetUserBucket exAlive cacheDown "t" exKey "Q" false (exLimiter 1)
      = (r, put_inbound "t" info' (exLimiter 1), ev)
    ∧ UserOnlineIP info' = []
    ∧ ipAllowedMap info' = []
    ∧ Reject r = false.
Proof.
  destruct (GetUserBucket_connectionless exAlive cacheDown "t" exKey "Q"
              (exLimiter 1) (exInfo 1) eq_refl)
    as (r & info' & ev & Hcall & HO & HA & _ & Hfree).
  exists r, info', ev. repeat split; [exact Hcall | exact HO | exact HA |].
  apply Hfree. reflexivity.
Defined.

(** A user with a device limit of 0 or less is never rejected by the local
    device tracker, whatever the alive list and the online set hold; on a
    connection-oriented attempt the IP is bound afterwards.  This is the
    case of a user that the directory does not know: it is handled with
    UID 0, no device limit and the node speed cap alone. *)
Theorem GetUserBucket_no_device_limit (alive : gmap Z (list string))
    (cacheGet : string → GetResult) (tag email ip : string) (tcp : bool)
    (l : Limiter) (info : InboundInfo) :
  Load tag (Inbounds l) = Some info →
  DeviceLimit (userQuota info email) ≤ 0 →
  ∃ r info' ev,
    GetUserBucket alive cacheGet tag email ip tcp l
      = (r, put_inbound tag info' l, ev)
    ∧ Reject r = globalReject cacheGet info email ip
    ∧ (tcp = true → is_Some (registered info' email ip))
    ∧ (Load email (UserInfoMap info) = None →
       UID (userQuota info email) = 0
       ∧ DeviceLimit (userQuota info email) = 0
       ∧ (GlobalLimit info = None →
          r = match NodeSpeedLimit info with
              | 0%N => (None, false, false)
              | lim => (Some (default (NewLimiter lim)
                                (Load email (BucketHub info))), true, false)
              end)).
Proof.
  intros Hl Hdl.
  destruct (GetUserBucket_known alive cacheGet tag email ip tcp l info Hl)
    as (r & info' & ev & Heq & HR & HO & _ & _ & _ & Hacc).
  exists r, info', ev. split; [done|].
  destruct (localLimit_unlimited alive info email ip
              (UID (userQuota info email)) _ Hdl) as [Hloc Hreg].
  assert (HR' : Reject r = globalReject cacheGet info email ip).
  { rewrite HR. destruct tcp; [by rewrite Hloc | done]. }
  split; [done|]. split.
  - intros ->. unfold registered, onlineSet in *. by rewrite HO.
  - intros Hnone. unfold userQuota in *. rewrite Hnone in *. simpl in *.
    do 2 (split; [done|]). intros HG.
    assert (Hrej : Reject r = false).
    { rewrite HR'. unfold globalReject. by rewrite HG. }
    rewrite (Hacc Hrej). rewrite determineRate_cases. simpl.
    by destruct (NodeSpeedLimit info).
Qed.

Lemma GetUserBucket_no_device_limit_witness :
  ∃ r info' ev,
    GetUserBucket exAlive cacheDown "t" "stranger" "Q" true exRateLimiter
      = (r, put_inbound "t" info' exRateLimiter, ev)
    ∧ is_Some (registered info' "stranger" "Q")
    ∧ r = (Some (NewLimiter 1000), true, false).
Proof.
  destruct (GetUserBucket_no_device_limit exAlive cacheDown "t" "stranger" "Q"
              true exRateLimiter exRateInfo eq_refl)
    as (r & info' & ev & Hcall & _ & Hreg & Hunknown).
  - vm_compute. discriminate.
  - exists r, info', ev. split; [exact Hcall|]. split; [exact (Hreg eq_refl)|].
    destruct (Hunknown eq_refl) as (_ & _ & Hres). exact (Hres eq_refl).
Defined.

(** ** The device ceiling along successive attempts *)

Section Ceiling.
Variable alive : gmap Z (list string).
Variable cacheGet : string → GetResult.

(** One attempt from an IP outside the alive list keeps the online set
    size plus the alive-list size within a positive device limit. *)
Lemma GetUserBucket_keeps_ceiling tag email ip l info :
  Load tag (Inbounds l) = Some info →
  ip ∉ GetUserAliveIPs alive (UID (userQuota info email)) →
  0 < DeviceLimit (userQuota info email) →
  len (onlineSet info email)
    + len (GetUserAliveIPs alive (UID (userQuota info email)))
    ≤ DeviceLimit (userQuota info email) →
  ∃ info',
    Load tag (Inbounds (GetUserBucket alive cacheGet tag email ip true l).1.2)
    = Some info'
    ∧ UserInfoMap info' = UserInfoMap info
    ∧ len (onlineSet info' email)
      + len (GetUserAliveIPs alive (UID (userQuota info email)))
      ≤ DeviceLimit (userQuota info email).
Proof.
  intros Hl Hout Hpos Hbound.
  destruct (GetUserBucket_known alive cacheGet tag email ip true l info Hl)
    as (r & info' & ev & Heq & _ & HO & _ & (_ & _ & HU & _) & _).
  rewrite Heq. simpl. exists info'.
  split; [apply Load_put_inbound_eq|]. split; [done|].
  assert (Hst : ipAllowed ip (GetUserAliveIPs alive (UID (userQuota info email))) ≠ 1)
    by (by rewrite <- ipAllowed_pinned).
  unfold onlineSet at 1. rewrite HO.
  destruct (registered info email ip) as [v|] eqn:Hreg.
  - rewrite (localLimit_member alive _ _ _ _ _ _ Hreg). simpl. done.
  - rewrite (localLimit_new alive _ _ _ _ _ Hreg).
    case_decide as Hover; simpl; [done|].
    rewrite Load_Store_eq. simpl. rewrite (length_Store_new _ _ _ Hreg).
    apply Z.nlt_ge. intros Hlt. apply Hover. split; [done|]. split; [done|]. lia.
Qed.
End Ceiling.

(** Along any sequence of connection-oriented attempts of one user from IPs
    outside its alive list, the online set size plus the alive-list size
    stays within a positive device limit once it is within it. *)
Theorem admitSeq_keeps_ceiling (alive : gmap Z (list string))
    (cacheGet : string → GetResult) (tag email : string) (ips : list string)
    (l : Limiter) (info : InboundInfo) :
  Load tag (Inbounds l) = Some info →
  (∀ ip, ip ∈ ips → ip ∉ GetUserAliveIPs alive (UID (userQuota info email))) →
  0 < DeviceLimit (userQuota info email) →
  len (onlineSet info email)
    + len (GetUserAliveIPs alive (UID (userQuota info email)))
    ≤ DeviceLimit (userQuota info email) →
  ∃ info',
    Load tag (Inbounds (admitSeq alive cacheGet tag email ips l).2) = Some info'
    ∧ len (onlineSet info' email)
      + len (GetUserAliveIPs alive (UID (userQuota info email)))
      ≤ DeviceLimit (userQuota info email).
Proof.
  intros Hl Hout Hpos Hbound. unfold admitSeq.
  assert (Hgen : ∀ acc : list bool * Limiter,
    (∃ i, Load tag (Inbounds acc.2) = Some i
          ∧ UserInfoMap i = UserInfoMap info
          ∧ len (onlineSet i email)
            + len (GetUserAliveIPs alive (UID (userQuota info email)))
            ≤ DeviceLimit (userQuota info email)) →
    ∃ i, Load tag (Inbounds
           (foldl (fun acc ip =>
              let r := GetUserBucket alive cacheGet tag email ip true acc.2 in
              ((acc.1 ++ [Reject r.1.1])%list, r.1.2)) acc ips).2) = Some i
         ∧ UserInfoMap i = UserInfoMap info
         ∧ len (onlineSet i email)
           + len (GetUserAliveIPs alive (UID (userQuota info email)))
           ≤ DeviceLimit (userQuota info email)).
  { induction ips as [|ip ips IH]; intros acc Hacc; simpl; [done|].
    apply IH; [intros ip' Hin; apply Hout; by right|].
    destruct Hacc as (i & Hi & HU & Hb). simpl.
    pose proof (userQuota_same _ _ email HU) as Hq.
    destruct (GetUserBucket_keeps_ceiling alive cacheGet tag email ip acc.2 i Hi)
      as (i' & Hi' & HU' & Hb').
    - rewrite Hq. apply Hout. by left.
    - by rewrite Hq.
    - by rewrite Hq.
    - exists i'. rewrite Hq in Hb'. split; [done|]. split; [congruence|done]. }
  destruct (Hgen ([], l)) as (i & Hi & _ & Hb); [by exists info|].
  by exists i.
Qed.

Lemma admitSeq_keeps_ceiling_witness :
  ∃ info',
    Load "t" (Inbounds (admitSeq exAlive cacheDown "t" exKey
                          ["B"; "C"; "D"; "B"] (exLimiter 3)).2) = Some info'
    ∧ len (onlineSet info' exKey) + 1 ≤ 3.
Proof.
  apply (admitSeq_keeps_ceiling exAlive cacheDown "t" exKey
           ["B"; "C"; "D"; "B"] (exLimiter 3) (exInfo 3) eq_refl).
  - intros ip Hin Hpin. vm_compute in Hpin.
    apply list_elem_of_singleton in Hpin. subst ip.
    revert Hin. apply (bool_decide_eq_false_1 _). vm_compute. reflexivity.
  - vm_compute. reflexivity.
  - vm_compute. discriminate.
Defined.

(** ** Reconciler: what a cycle leaves behind *)

Section SyncMapElems.
Context {K V : Type} `{EqDecision K}.
Implicit Types (k : K) (v : V) (m : SyncMap K V).

Lemma elem_of_Store k v k' v' m :
  (k', v') ∈ Store k v m → (k' = k ∧ v' = v) ∨ (k', v') ∈ m.
Proof.
  induction m as [|[k0 v0] m IH]; simpl.
  - intros Hin%list_elem_of_singleton. simplify_eq. by left.
  - case_decide; subst.
    + intros [Heq|Hin]%elem_of_cons; [simplify_eq; by left|].
      right. by right.
    + intros [Heq|Hin]%elem_of_cons; [simplify_eq; right; left|].
      destruct (IH Hin) as [?|?]; [by left|]. right. by right.
Qed.

Lemma elem_of_Delete k k' v' m : (k', v') ∈ Delete k m → (k', v') ∈ m.
Proof.
  induction m as [|[k0 v0] m IH]; simpl; [done|].
  case_decide; subst.
  - intros Hin. right. auto.
  - intros [Heq|Hin]%elem_of_cons; [simplify_eq; left | right; auto].
Qed.

Lemma Load_elem_NoDup k v m : NoDup (keys m) → (k, v) ∈ m → Load k m = Some v.
Proof.
  unfold keys. induction m as [|[k0 v0] m IH]; simpl; intros Hnd Hin.
  - by apply elem_of_nil in Hin.
  - apply NoDup_cons in Hnd as [Hfresh Hnd].
    apply elem_of_cons in Hin as [Heq|Hin]; simplify_eq.
    + by rewrite decide_True.
    + rewrite decide_False; [by apply IH|].
      intros ->. apply Hfresh.
      by apply (list_elem_of_fmap_2 fst _ (k, v)).
Qed.
End SyncMapElems.

Section CycleFacts.
Variables (userTraffic PrevT : gmap Z Z) (PrevO : gmap Z string) (T : Z).

Lemma untouched_refl i : untouched i i.
Proof. unfold untouched. by repeat split. Qed.

Lemma untouched_trans i1 i2 i3 :
  untouched i1 i2 → untouched i2 i3 → untouched i1 i3.
Proof.
  unfold untouched. intros (?&?&?&?&?&?) (?&?&?&?&?&?).
  repeat split; congruence.
Qed.

Lemma visit_ip_state st kv :
  untouched (inbound st.1) (inbound (visit_ip userTraffic PrevT PrevO T st kv).1)
  ∧ UserOnlineIP (inbound (visit_ip userTraffic PrevT PrevO T st kv).1)
    = UserOnlineIP (inbound st.1)
  ∧ Otraffic (inbound (visit_ip userTraffic PrevT PrevO T st kv).1)
    = storeTraffic userTraffic (Otraffic (inbound st.1)) kv.2
  ∧ (visit_ip userTraffic PrevT PrevO T st kv).2
    = {| l_uid := kv.2; l_X := delta userTraffic PrevT kv.2;
         l_A := default (l_A st.2) (Load kv.1 (ipAllowedMap (inbound st.1)));
         l_pip := atEmpty PrevO kv.2 |}.
Proof.
  unfold visit_ip, untouched, storeTraffic.
  destruct (Load kv.1 (ipAllowedMap (inbound st.1))); simpl;
    case_decide; simpl; by repeat split.
Qed.

Lemma visit_ip_fold_state ipMap : ∀ st,
  untouched (inbound st.1)
    (inbound (foldl (visit_ip userTraffic PrevT PrevO T) st ipMap).1)
  ∧ UserOnlineIP (inbound (foldl (visit_ip userTraffic PrevT PrevO T) st ipMap).1)
    = UserOnlineIP (inbound st.1)
  ∧ Otraffic (inbound (foldl (visit_ip userTraffic PrevT PrevO T) st ipMap).1)
    = foldl (storeTraffic userTraffic) (Otraffic (inbound st.1)) ipMap.*2
  ∧ (foldl (visit_ip userTraffic PrevT PrevO T) st ipMap).2
    = foldl (fun loc kv =>
               {| l_uid := kv.2; l_X := delta userTraffic PrevT kv.2;
                  l_A := default (l_A loc)
                           (Load kv.1 (ipAllowedMap (inbound st.1)));
                  l_pip := atEmpty PrevO kv.2 |})
            st.2 ipMap.
Proof.
  induction ipMap as [|kv rest IH]; intros st; simpl.
  - split; [apply untouched_refl | done].
  - destruct (visit_ip_state st kv) as (Hu & Ho & Ht & Hl).
    destruct (IH (visit_ip userTraffic PrevT PrevO T st kv)) as (Hu' & Ho' & Ht' & Hl').
    split; [by eapply untouched_trans|]. split; [congruence|].
    split; [by rewrite Ht', Ht|].
    rewrite Hl', Hl. by destruct Hu as (_ & _ & _ & _ & -> & _).
Qed.

Lemma visit_user_state c email ipMap :
  untouched (inbound c)
    (inbound (visit_user userTraffic PrevT PrevO T c (email, ipMap)))
  ∧ Otraffic (inbound (visit_user userTraffic PrevT PrevO T c (email, ipMap)))
    = foldl (storeTraffic userTraffic) (Otraffic (inbound c)) ipMap.*2
  ∧ UserOnlineIP (inbound (visit_user userTraffic PrevT PrevO T c (email, ipMap)))
    = if purged (ipAllowedMap (inbound c)) userTraffic PrevT PrevO T ipMap
      then Delete email (UserOnlineIP (inbound c))
      else UserOnlineIP (inbound c).
Proof.
  unfold visit_user, purged, finalLocals. simpl.
  destruct (visit_ip_fold_state ipMap (c, Locals0)) as (Hu & Ho & Ht & Hl).
  simpl in *. rewrite Hl.
  match goal with |- context [if ?b then _ else _] => destruct b end; simpl.
  - split; [exact Hu|]. split; [done|]. by rewrite Ho.
  - split; [exact Hu|]. split; [exact Ht | exact Ho].
Qed.

Lemma visit_user_fold_state online : ∀ c,
  untouched (inbound c)
    (inbound (foldl (visit_user userTraffic PrevT PrevO T) c online))
  ∧ Otraffic (inbound (foldl (visit_user userTraffic PrevT PrevO T) c online))
    = foldl (storeTraffic userTraffic) (Otraffic (inbound c)) (boundUIDs online)
  ∧ (∀ e,
       Load e (UserOnlineIP
                 (inbound (foldl (visit_user userTraffic PrevT PrevO T) c online)))
       = if existsb (fun kv =>
                       bool_decide (kv.1 = e)
                       && purged (ipAllowedMap (inbound c)) userTraffic PrevT
                            PrevO T kv.2) online
         then None else Load e (UserOnlineIP (inbound c)))
  ∧ (∀ e m,
       (e, m) ∈ UserOnlineIP
                  (inbound (foldl (visit_user userTraffic PrevT PrevO T) c online)) →
       (e, m) ∈ UserOnlineIP (inbound c)).
Proof.
  induction online as [|[email ipMap] rest IH]; intros c; simpl.
  - split; [apply untouched_refl | done].
  - destruct (visit_user_state c email ipMap) as (Hu & Ht & Ho).
    destruct (IH (visit_user userTraffic PrevT PrevO T c (email, ipMap)))
      as (Hu' & Ht' & Ho' & He').
    pose proof Hu as (_ & _ & _ & _ & Hmap & _).
    split; [by eapply untouched_trans|].
    split; [by rewrite Ht', Ht, foldl_app|].
    split.
    + intros e. rewrite Ho', Hmap, Ho.
      destruct (existsb _ rest); [by rewrite orb_true_r|]. rewrite orb_false_r.
      destruct (purged _ _ _ _ _ ipMap); simpl.
      * case_bool_decide; subst; simpl;
          [apply Load_Delete_eq | by apply Load_Delete_ne].
      * by rewrite andb_false_r.
    + intros e m Hin. apply He' in Hin. rewrite Ho in Hin.
      destruct (purged _ _ _ _ _ ipMap); [by eapply elem_of_Delete | done].
Qed.
End CycleFacts.

Lemma clear_buckets_Load i e :
  Load e (BucketHub (clear_buckets i))
  = match Load e (UserOnlineIP i) with
    | Some _ => Load e (BucketHub i)
    | None => None
    end.
Proof.
  unfold clear_buckets. simpl.
  assert (Hgen : ∀ (snap hub : SyncMap string RateLimiter),
    Load e (foldl (fun hub kv =>
                     match Load kv.1 (UserOnlineIP i) with
                     | Some _ => hub
                     | None => Delete kv.1 hub
                     end) hub snap)
    = match Load e (UserOnlineIP i) with
      | Some _ => Load e hub
      | None => if bool_decide (e ∈ keys snap) then None else Load e hub
      end).
  { induction snap as [|[k v] rest IH]; intros hub; simpl.
    - by destruct (Load e (UserOnlineIP i)).
    - rewrite IH. unfold keys. simpl.
      destruct (Load e (UserOnlineIP i)) as [x|] eqn:He.
      + destruct (Load k (UserOnlineIP i)) eqn:Hk; [done|].
        apply Load_Delete_ne. congruence.
      + destruct (decide (e = k)) as [->|Hne].
        * rewrite He. rewrite (bool_decide_eq_true_2 (k ∈ k :: rest.*1)) by left.
          destruct (bool_decide (k ∈ rest.*1)); [done | apply Load_Delete_eq].
        * assert (Hmem : bool_decide (e ∈ k :: rest.*1) = bool_decide (e ∈ rest.*1)).
          { apply bool_decide_ext. rewrite elem_of_cons. split; [|by right].
            intros [?|?]; [congruence | done]. }
          rewrite Hmem. destruct (bool_decide (e ∈ rest.*1)); [done|].
          destruct (Load k (UserOnlineIP i)); [done|].
          apply Load_Delete_ne. congruence. }
  rewrite Hgen. destruct (Load e (UserOnlineIP i)); [done|].
  case_bool_decide as Hin; [done|]. by apply Load_None_keys.
Qed.

Lemma storeTraffic_NoDup userTraffic uids : ∀ m,
  NoDup (keys m) → NoDup (keys (foldl (storeTraffic userTraffic) m uids)).
Proof.
  induction uids as [|u uids IH]; intros m Hnd; simpl; [done|].
  apply IH. by apply NoDup_keys_Store.
Qed.

Lemma storeTraffic_Load userTraffic uids uid : ∀ m,
  Load uid (foldl (storeTraffic userTraffic) m uids)
  = if bool_decide (uid ∈ uids) then Some (at0 userTraffic uid) else Load uid m.
Proof.
  induction uids as [|u uids IH]; intros m; simpl; [done|].
  rewrite IH. unfold storeTraffic.
  destruct (decide (u = uid)) as [->|Hne].
  - rewrite Load_Store_eq, (bool_decide_eq_true_2 (uid ∈ uid :: uids)) by left.
    by case_bool_decide.
  - rewrite Load_Store_ne by done.
    apply (f_equal (fun b : bool => if b then _ else _)).
    apply bool_decide_ext. rewrite elem_of_cons. split; [by right|].
    intros [?|?]; [congruence | done].
Qed.

(** What a cycle on a registered inbound leaves in the inbound. *)
Lemma GetOnlineDevice_state tag userTraffic T l info :
  Load tag (Inbounds l) = Some info →
  ∃ info',
    (GetOnlineDevice tag userTraffic T l).2 = put_inbound tag info' l
    ∧ Tag info' = Tag info ∧ NodeSpeedLimit info' = NodeSpeedLimit info
    ∧ UserInfoMap info' = UserInfoMap info
    ∧ ipAllowedMap info' = ipAllowedMap info
    ∧ GlobalLimit info' = GlobalLimit info
    ∧ BucketHub info' = BucketHub (clear_buckets info)
    ∧ Otraffic info'
      = foldl (storeTraffic userTraffic) [] (boundUIDs (UserOnlineIP info))
    ∧ (∀ e,
         Load e (UserOnlineIP info')
         = if existsb (fun kv =>
                         bool_decide (kv.1 = e)
                         && purged (ipAllowedMap info) userTraffic
                              (snapshot (Otraffic info))
                              (snapshot (OnlineDevice info)) T kv.2)
                (UserOnlineIP info)
           then None else Load e (UserOnlineIP info))
    ∧ (∀ e m, (e, m) ∈ UserOnlineIP info' → (e, m) ∈ UserOnlineIP info).
Proof.
  intros Hl. unfold GetOnlineDevice. rewrite Hl. simpl.
  match goal with
  | |- context [foldl (visit_user ?ut ?pt ?po ?t) ?c ?on] =>
      destruct (visit_user_fold_state ut pt po t on c)
        as ((H1 & H2 & H3 & H4 & H5 & H6) & Ht & Ho & He)
  end.
  simpl in *. eexists. split; [done|].
  do 6 (split; [done|]). split; [done|]. split; [exact Ho | exact He].
Qed.

(** A cycle of [GetOnlineDevice] on a registered inbound drops the bucket
    of every user that had no online set when the cycle began and keeps the
    others; the tag, the node speed cap, the user directory, the
    allow-status cache and the ledger handle are as before, and so is every
    other inbound. *)
Theorem GetOnlineDevice_evicts_buckets (tag : string) (userTraffic : gmap Z Z)
    (T : Z) (l : Limiter) (info : InboundInfo) :
  Load tag (Inbounds l) = Some info →
  ∃ info',
    Load tag (Inbounds (GetOnlineDevice tag userTraffic T l).2) = Some info'
    ∧ (∀ email,
         Load email (BucketHub info')
         = match Load email (UserOnlineIP info) with
           | Some _ => Load email (BucketHub info)
           | None => None
           end)
    ∧ Tag info' = Tag info ∧ NodeSpeedLimit info' = NodeSpeedLimit info
    ∧ UserInfoMap info' = UserInfoMap info
    ∧ ipAllowedMap info' = ipAllowedMap info
    ∧ GlobalLimit info' = GlobalLimit info
    ∧ ∀ tag', tag ≠ tag' →
        Load tag' (Inbounds (GetOnlineDevice tag userTraffic T l).2)
        = Load tag' (Inbounds l).
Proof.
  intros Hl.
  destruct (GetOnlineDevice_state tag userTraffic T l info Hl)
    as (info' & -> & ? & ? & ? & ? & ? & HB & _).
  exists info'. split; [apply Load_put_inbound_eq|].
  split; [intros email; rewrite HB; apply clear_buckets_Load|].
  do 5 (split; [done|]). intros tag' Hne. by apply Load_put_inbound_ne.
Qed.

Lemma GetOnlineDevice_evicts_buckets_witness :
  Load exKey (BucketHub (default exRateInfo (Load "t" (Inbounds exLimiterIdle))))
  = Some (NewLimiter 1000)
  ∧ ∃ info',
      Load "t" (Inbounds (GetOnlineDevice "t" ∅ 10 exLimiterIdle).2) = Some info'
      ∧ Load exKey (BucketHub info') = None.
Proof.
  split; [vm_compute; reflexivity|].
  destruct (GetOnlineDevice_evicts_buckets "t" ∅ 10 exLimiterIdle
              (default exRateInfo (Load "t" (Inbounds exLimiterIdle))))
    as (info' & Hl & Hb & _).
  - vm_compute. reflexivity.
  - exists info'. split; [exact Hl|]. rewrite Hb. vm_compute. reflexivity.
Defined.

Lemma existsb_unique_key {V} (online : SyncMap string V) (f : V → bool) e m :
  NoDup (keys online) → (e, m) ∈ online →
  existsb (fun kv => bool_decide (kv.1 = e) && f kv.2) online = f m.
Proof.
  unfold keys. induction online as [|[k v] rest IH]; simpl; intros Hnd Hin.
  - by apply elem_of_nil in Hin.
  - apply NoDup_cons in Hnd as [Hfresh Hnd].
    apply elem_of_cons in Hin as [Heq|Hin]; simplify_eq.
    + rewrite bool_decide_eq_true_2 by done. simpl.
      destruct (f v); [done|]. simpl.
      apply not_true_is_false. intros (kv & Hin & Hb)%existsb_exists.
      apply andb_true_iff in Hb as [Hk%bool_decide_eq_true _].
      apply Hfresh. rewrite <- Hk.
      apply list_elem_of_In in Hin. by apply (list_elem_of_fmap_2 fst).
    + rewrite bool_decide_eq_false_2; [by apply IH|].
      intros ->. apply Hfresh. by apply (list_elem_of_fmap_2 fst _ (e, m)).
Qed.

Lemma finalLocals_snoc amap userTraffic PrevT PrevO ipMap ip uid :
  finalLocals amap userTraffic PrevT PrevO (ipMap ++ [(ip, uid)])%list
  = {| l_uid := uid; l_X := delta userTraffic PrevT uid;
       l_A := default (l_A (finalLocals amap userTraffic PrevT PrevO ipMap))
                (Load ip amap);
       l_pip := atEmpty PrevO uid |}.
Proof. unfold finalLocals. by rewrite foldl_app. Qed.

(** A cycle drops the online set of a user (all of whose IPs are bound with
    one UID) when the traffic delta of that UID is at most [T], or when all
    its IPs are classified unpinned; it keeps the set as it is when the
    delta is above [T] and every IP is classified otherwise.  No online set
    appears for a user that had none. *)
Theorem GetOnlineDevice_purges_idle_users (tag : string)
    (userTraffic : gmap Z Z) (T : Z) (l : Limiter) (info : InboundInfo)
    (email : string) (ipMap : SyncMap string Z) (uid : Z) :
  Load tag (Inbounds l) = Some info →
  NoDup (keys (UserOnlineIP info)) →
  (email, ipMap) ∈ UserOnlineIP info →
  ipMap ≠ [] →
  (∀ ip u, (ip, u) ∈ ipMap → u = uid) →
  ∃ info',
    Load tag (Inbounds (GetOnlineDevice tag userTraffic T l).2) = Some info'
    ∧ (delta userTraffic (snapshot (Otraffic info)) uid ≤ T →
       Load email (UserOnlineIP info') = None)
    ∧ ((∀ ip u, (ip, u) ∈ ipMap → Load ip (ipAllowedMap info) = Some 2) →
       Load email (UserOnlineIP info') = None)
    ∧ (T < delta userTraffic (snapshot (Otraffic info)) uid →
       (∀ ip u, (ip, u) ∈ ipMap →
          ∃ a, Load ip (ipAllowedMap info) = Some a ∧ a ≠ 2) →
       Load email (UserOnlineIP info') = Some ipMap)
    ∧ (∀ e, Load e (UserOnlineIP info) = None →
         Load e (UserOnlineIP info') = None).
Proof.
  intros Hl Hnd Hin Hne Huid.
  destruct (GetOnlineDevice_state tag userTraffic T l info Hl)
    as (info' & -> & _ & _ & _ & _ & _ & _ & _ & Ho & _).
  exists info'. split; [apply Load_put_inbound_eq|].
  pose proof (Ho email) as Hemail.
  rewrite (existsb_unique_key _ _ _ _ Hnd Hin) in Hemail.
  rewrite (Load_elem_NoDup _ _ _ Hnd Hin) in Hemail.
  destruct ipMap as [|[ip0 u0] rest _] using rev_ind; [done|]. clear Hne.
  assert (u0 = uid) as -> by (apply (Huid ip0); apply elem_of_app; right; left).
  unfold purged in Hemail. rewrite finalLocals_snoc in Hemail. simpl in Hemail.
  split; [|split; [|split]].
  - intros Hd. rewrite Hemail.
    destruct (Z.leb_spec (delta userTraffic (snapshot (Otraffic info)) uid) T);
      [by rewrite orb_true_r | lia].
  - intros Hall. rewrite Hemail.
    rewrite (Hall ip0 uid) by (apply elem_of_app; right; left). simpl.
    done.
  - intros Hd Hall. rewrite Hemail.
    destruct (Hall ip0 uid) as (a & -> & Ha); [apply elem_of_app; right; left|].
    simpl. rewrite bool_decide_eq_false_2 by done.
    destruct (Z.leb_spec (delta userTraffic (snapshot (Otraffic info)) uid) T);
      [lia | done].
  - intros e He. rewrite Ho, He. by destruct (existsb _ _).
Qed.

Lemma GetOnlineDevice_purges_idle_users_witness :
  ∃ info',
    Load "t" (Inbounds (GetOnlineDevice "t" {[ 7 := 5 ]} 10 exLimiterAB).2)
    = Some info'
    ∧ Load exKey (UserOnlineIP info') = None.
Proof.
  destruct (GetOnlineDevice_purges_idle_users "t" {[ 7 := 5 ]} 10 exLimiterAB
              exInfoAB exKey [("A", 7); ("B", 7)] 7 eq_refl)
    as (info' & Hl & Hidle & _).
  - apply (bool_decide_unpack _). vm_compute. exact I.
  - apply (bool_decide_unpack _). vm_compute. exact I.
  - discriminate.
  - intros ip u Hin.
    apply elem_of_cons in Hin as [Heq|Hin]; [by injection Heq|].
    apply list_elem_of_singleton in Hin. by injection Hin.
  - exists info'. split; [exact Hl|]. apply Hidle. vm_compute. discriminate.
Defined.

(** After a cycle the traffic accumulator holds the current counter of
    every UID bound when the cycle began and nothing else, so the delta of
    the next cycle is taken from that counter for such a UID and from zero
    for any other. *)
Theorem GetOnlineDevice_records_traffic (tag : string) (userTraffic : gmap Z Z)
    (T : Z) (l : Limiter) (info : InboundInfo) :
  Load tag (Inbounds l) = Some info →
  ∃ info',
    Load tag (Inbounds (GetOnlineDevice tag userTraffic T l).2) = Some info'
    ∧ (∀ uid,
         Load uid (Otraffic info')
         = if bool_decide (uid ∈ boundUIDs (UserOnlineIP info))
           then Some (at0 userTraffic uid) else None)
    ∧ (∀ nextTraffic uid,
         delta nextTraffic (snapshot (Otraffic info')) uid
         = wrap64 (at0 nextTraffic uid
                   - if bool_decide (uid ∈ boundUIDs (UserOnlineIP info))
                     then at0 userTraffic uid else 0)).
Proof.
  intros Hl.
  destruct (GetOnlineDevice_state tag userTraffic T l info Hl)
    as (info' & -> & _ & _ & _ & _ & _ & _ & Ht & _).
  exists info'. split; [apply Load_put_inbound_eq|].
  assert (Hload : ∀ uid,
    Load uid (Otraffic info')
    = if bool_decide (uid ∈ boundUIDs (UserOnlineIP info))
      then Some (at0 userTraffic uid) else None).
  { intros uid. by rewrite Ht, storeTraffic_Load. }
  split; [exact Hload|].
  intros nextTraffic uid. unfold delta, at0 at 2.
  rewrite snapshot_Load, Hload.
  - by destruct (bool_decide _).
  - rewrite Ht. apply storeTraffic_NoDup, NoDup_nil_2.
Qed.

Lemma GetOnlineDevice_records_traffic_witness :
  ∃ info',
    Load "t" (Inbounds (GetOnlineDevice "t" {[ 7 := 100 ]} 10 exLimiterAB).2)
    = Some info'
    ∧ Load 7 (Otraffic info') = Some 100
    ∧ delta {[ 7 := 250 ]} (snapshot (Otraffic info')) 7 = 150.
Proof.
  destruct (GetOnlineDevice_records_traffic "t" {[ 7 := 100 ]} 10 exLimiterAB
              exInfoAB eq_refl)
    as (info' & Hl & Hload & Hdelta).
  exists info'. split; [exact Hl|]. split.
  - rewrite Hload. vm_compute. reflexivity.
  - rewrite Hdelta. vm_compute. reflexivity.
Defined.

(** [ResetOtraffic] on a registered inbound reports no error and empties the
    traffic accumulator, leaving every other field and every other inbound;
    the cycle that follows judges the activity of every user on its
    cumulative counter alone. *)
Theorem ResetOtraffic_restarts_deltas (tag : string) (userTraffic : gmap Z Z)
    (T : Z) (l : Limiter) (info : InboundInfo) :
  Load tag (Inbounds l) = Some info →
  ∃ info0 users flag l',
    ResetOtraffic tag l = (put_inbound tag info0 l, None)
    ∧ Otraffic info0 = []
    ∧ untouched info info0
    ∧ UserOnlineIP info0 = UserOnlineIP info
    ∧ OnlineDevice info0 = OnlineDevice info
    ∧ (∀ tag', tag ≠ tag' →
         Load tag' (Inbounds (put_inbound tag info0 l)) = Load tag' (Inbounds l))
    ∧ GetOnlineDevice tag userTraffic T (put_inbound tag info0 l)
      = ((Some users, flag, None), l')
    ∧ ∀ email ipMap ip uid a,
        (email, ipMap) ∈ UserOnlineIP info → (ip, uid) ∈ ipMap →
        Load ip (ipAllowedMap info) = Some a → a ≠ 2 →
        {| api.OnlineUID := uid;
           api.IP := if wrap64 (at0 userTraffic uid) <=? T then "" else ip |}
        ∈ users.
Proof.
  intros Hl.
  destruct (GetOnlineDevice_known tag userTraffic T
              (put_inbound tag (set_Otraffic [] info) l) (set_Otraffic [] info)
              (Load_put_inbound_eq _ _ _))
    as (users & info' & Heq & _ & _ & Hcompl).
  eexists (set_Otraffic [] info), users, _, _.
  unfold ResetOtraffic. rewrite Hl.
  split; [done|]. split; [done|].
  split; [unfold untouched; by repeat split|].
  split; [done|]. split; [done|].
  split; [intros; by apply Load_put_inbound_ne|].
  split; [exact Heq|].
  intros email ipMap ip uid a He Hip Ha Hne.
  pose proof (Hcompl email ipMap ip uid a He Hip Ha Hne) as Hin.
  unfold reportedIP, delta in Hin. simpl in Hin.
  replace (at0 (snapshot []) uid) with 0 in Hin by done.
  by rewrite Z.sub_0_r in Hin.
Qed.

Lemma ResetOtraffic_restarts_deltas_witness :
  ∃ info0 users flag l',
    ResetOtraffic "t" exLimiterAB = (put_inbound "t" info0 exLimiterAB, None)
    ∧ Otraffic info0 = []
    ∧ GetOnlineDevice "t" {[ 7 := 100 ]} 10 (put_inbound "t" info0 exLimiterAB)
      = ((Some users, flag, None), l')
    ∧ {| api.OnlineUID := 7; api.IP := "A" |} ∈ users.
Proof.
  destruct (ResetOtraffic_restarts_deltas "t" {[ 7 := 100 ]} 10 exLimiterAB
              exInfoAB eq_refl)
    as (info0 & users & flag & l' & Hreset & Hempty & _ & _ & _ & _ & Hcall & Hrep).
  exists info0, users, flag, l'.
  split; [exact Hreset|]. split; [exact Hempty|]. split; [exact Hcall|].
  apply (Hrep exKey [("A", 7); ("B", 7)] "A" 7 0).
  - apply (bool_decide_unpack _). vm_compute. exact I.
  - apply (bool_decide_unpack _). vm_compute. exact I.
  - reflexivity.
  - discriminate.
Defined.

(** ** Every bound IP is classified *)

Lemma Classified_put tag i l :
  Classified l → classified i → Classified (put_inbound tag i l).
Proof.
  intros HC Hi tag' i' Hin. unfold put_inbound in Hin. simpl in Hin.
  apply elem_of_Store in Hin as [[_ ->]|Hin]; [done | by eapply HC].
Qed.

Lemma Classified_Load tag i l :
  Classified l → Load tag (Inbounds l) = Some i → classified i.
Proof. intros HC Hl. eapply HC. by apply Load_Some_elem. Qed.

Lemma classified_same i i' :
  UserOnlineIP i' = UserOnlineIP i → ipAllowedMap i' = ipAllowedMap i →
  classified i → classified i'.
Proof. unfold classified. intros -> ->. done. Qed.

Lemma localLimit_classified alive i email ip uid dl :
  classified i → classified (localLimit alive i email ip uid dl).2.
Proof.
  intros Hc.
  set (st := ipAllowed ip (GetUserAliveIPs alive uid)).
  assert (Hcached : classified (cached ip st i)).
  { intros e m ip' u He Hip. unfold cached. simpl.
    apply Load_is_Some_Store. by eapply Hc. }
  destruct (registered i email ip) as [v|] eqn:Hreg.
  - by rewrite (localLimit_member alive _ _ _ _ _ _ Hreg).
  - rewrite (localLimit_new alive _ _ _ _ _ Hreg).
    case_decide; simpl; [done|].
    intros e m ip' u He Hip. simpl in *.
    apply elem_of_Store in He as [[-> ->]|He].
    + apply elem_of_Store in Hip as [[-> ->]|Hip]; [by rewrite Load_Store_eq|].
      apply Load_is_Some_Store. unfold onlineSet in Hip.
      destruct (Load email (UserOnlineIP i)) as [set|] eqn:Hset; simpl in Hip;
        [|by apply elem_of_nil in Hip].
      eapply Hc; [by apply Load_Some_elem | done].
    + apply Load_is_Some_Store. by eapply Hc.
Qed.

(** The empty limiter has a classification for every bound IP, and every
    operation keeps it so: an IP enters an online set only after
    [GetUserBucket] has stored its classification, and the allow-status
    cache never loses an entry. *)
Theorem Classified_invariant :
  Classified New
  ∧ (∀ tag n users g l,
       Classified l → Classified (AddInboundLimiter tag n users g l).1)
  ∧ (∀ tag users l, Classified l → Classified (UpdateInboundLimiter tag users l).1)
  ∧ (∀ tag l, Classified l → Classified (DeleteInboundLimiter tag l).1)
  ∧ (∀ tag l, Classified l → Classified (ResetOtraffic tag l).1)
  ∧ (∀ alive cacheGet tag email ip tcp l,
       Classified l →
       Classified (GetUserBucket alive cacheGet tag email ip tcp l).1.2)
  ∧ (∀ tag userTraffic T l,
       Classified l → Classified (GetOnlineDevice tag userTraffic T l).2).
Proof.
  split; [intros tag i Hin; by apply elem_of_nil in Hin|].
  split; [|split; [|split; [|split; [|split]]]].
  - intros tag n users g l HC. simpl. apply Classified_put; [done|].
    intros e m ip u He. by apply elem_of_nil in He.
  - intros tag users l HC. unfold UpdateInboundLimiter.
    destruct (Load tag (Inbounds l)) as [info|] eqn:Hl; [|done]. simpl.
    apply Classified_put; [done|].
    destruct (update_users_frame tag users info)
      as ((_ & _ & HO & _ & HA & _) & _).
    eapply classified_same; [done..|]. by eapply Classified_Load.
  - intros tag l HC tag' i Hin. simpl in Hin.
    apply elem_of_Delete in Hin. by eapply HC.
  - intros tag l HC. unfold ResetOtraffic.
    destruct (Load tag (Inbounds l)) as [info|] eqn:Hl; [|done]. simpl.
    apply Classified_put; [done|].
    eapply (classified_same info); [done..|]. by eapply Classified_Load.
  - intros alive cacheGet tag email ip tcp l HC.
    destruct (Load tag (Inbounds l)) as [info|] eqn:Hl;
      [|unfold GetUserBucket; by rewrite Hl].
    destruct (GetUserBucket_known alive cacheGet tag email ip tcp l info Hl)
      as (r & info' & ev & -> & _ & HO & HA & _).
    simpl. apply Classified_put; [done|].
    eapply classified_same; [exact HO | exact HA |].
    destruct tcp; [|by eapply Classified_Load].
    apply localLimit_classified. by eapply Classified_Load.
  - intros tag userTraffic T l HC.
    destruct (Load tag (Inbounds l)) as [info|] eqn:Hl;
      [|unfold GetOnlineDevice; by rewrite Hl].
    destruct (GetOnlineDevice_state tag userTraffic T l info Hl)
      as (info' & -> & _ & _ & _ & HA & _ & _ & _ & _ & Hsub).
    apply Classified_put; [done|].
    intros e m ip u He Hip. rewrite HA.
    eapply (Classified_Load tag info l HC Hl); [by apply Hsub | done].
Qed.



(** ** The key of the global ledger *)

Lemma prefix_app a b : String.prefix a (a ++ b) = true.
Proof.
  induction a as [|c a IH]; simpl; [by destruct b|].
  by destruct (Ascii.ascii_dec c c).
Qed.

Lemma substring_all b : String.substring 0 (String.length b) b = b.
Proof. induction b as [|c b IH]; simpl; [done|]. by rewrite IH. Qed.

Lemma substring_app a b :
  String.substring (String.length a)
    (String.length (a ++ b) - String.length a) (a ++ b) = b.
Proof.
  induction a as [|c a IH]; simpl.
  - rewrite Nat.sub_0_r. apply substring_all.
  - exact IH.
Qed.

Lemma Replace1_unfold s old new :
  Replace1 s old new
  = if String.prefix old s then
      new ++ String.substring (String.length old)
               (String.length s - String.length old) s
    else
      match s with
      | EmptyString => EmptyString
      | String c s' => String c (Replace1 s' old new)
      end.
Proof. by destruct s. Qed.

Lemma Replace1_prefix a b new : Replace1 (a ++ b) a new = new ++ b.
Proof. by rewrite Replace1_unfold, prefix_app, substring_app. Qed.

Lemma app_length_string a b :
  String.length (a ++ b) = (String.length a + String.length b)%nat.
Proof. induction a as [|c a IH]; simpl; [done|]. by rewrite IH. Qed.

Lemma app_inv_tail_string a1 a2 b : a1 ++ b = a2 ++ b → a1 = a2.
Proof.
  revert a2. induction a1 as [|c a1 IH]; intros [|c2 a2] Heq.
  - done.
  - apply (f_equal String.length) in Heq.
    rewrite !app_length_string in Heq. simpl in Heq. exfalso. lia.
  - apply (f_equal String.length) in Heq.
    rewrite !app_length_string in Heq. simpl in Heq. exfalso. lia.
  - change (String c (a1 ++ b) = String c2 (a2 ++ b)) in Heq.
    injection Heq as -> Heq. f_equal. by apply IH.
Qed.

(** For a user key built by the registry, the key under which
    [globalLimit] reads and writes the ledger is the user key with the tag
    replaced by the decimal device limit, also when the tag is empty or
    occurs again inside the e-mail; it does not depend on the tag, and two
    device limits give two different keys. *)
Theorem globalLimit_key (tag tag' email : string) (uid deviceLimit deviceLimit' : Z) :
  Replace1 (userKey tag email uid) tag (pretty deviceLimit)
  = userKey (pretty deviceLimit) email uid
  ∧ Replace1 (userKey tag email uid) tag (pretty deviceLimit)
    = Replace1 (userKey tag' email uid) tag' (pretty deviceLimit)
  ∧ (Replace1 (userKey tag email uid) tag (pretty deviceLimit)
     = Replace1 (userKey tag email uid) tag (pretty deviceLimit')
     ↔ deviceLimit = deviceLimit').
Proof.
  unfold userKey. rewrite !Replace1_prefix. split; [done|]. split; [done|].
  split; [|by intros ->].
  intros Heq%app_inv_tail_string. by apply (inj pretty).
Qed.

(** ** Panel client *)

Lemma aliveTable_other (users : list newV2board.aips) uid : ∀ m,
  uid ∉ newV2board.Id <$> users →
  foldl newV2board.storeAlive m users !! uid = m !! uid.
Proof.
  induction users as [|u users IH]; intros m Hout; simpl; [done|].
  rewrite fmap_cons in Hout. apply not_elem_of_cons in Hout as [Hne Hout].
  rewrite (IH _ Hout). unfold newV2board.storeAlive.
  destruct (0 <? len (newV2board.AliveIPs u)); [|done].
  by rewrite lookup_insert_ne.
Qed.

Lemma aliveTable_listed (users : list newV2board.aips) u : ∀ m,
  NoDup (newV2board.Id <$> users) → u ∈ users →
  default [] (foldl newV2board.storeAlive m users !! newV2board.Id u)
  = if 0 <? len (newV2board.AliveIPs u) then newV2board.AliveIPs u
    else default [] (m !! newV2board.Id u).
Proof.
  induction users as [|u0 users IH]; intros m Hnd Hin; simpl.
  - by apply elem_of_nil in Hin.
  - rewrite fmap_cons in Hnd. apply NoDup_cons in Hnd as [Hfresh Hnd].
    apply elem_of_cons in Hin as [->|Hin].
    + rewrite aliveTable_other by done. unfold newV2board.storeAlive.
      destruct (0 <? len (newV2board.AliveIPs u0)); [|done].
      by rewrite lookup_insert_eq.
    + rewrite (IH _ Hnd Hin).
      destruct (0 <? len (newV2board.AliveIPs u)); [done|].
      unfold newV2board.storeAlive.
      destruct (0 <? len (newV2board.AliveIPs u0)); [|done].
      rewrite lookup_insert_ne; [done|]. intros Heq. apply Hfresh.
      rewrite Heq. by apply (list_elem_of_fmap_2 newV2board.Id).
Qed.

(** [GetIpsList] with an empty user list reports an error and keeps the
    alive-IP table.  Otherwise it replaces the table: a UID outside the list
    has no alive IPs afterwards, whatever the old table held, and a user
    listed once has exactly its own alive IPs, so an IP is then classified
    0 for it exactly when its list is empty. *)
Theorem storeAliveIPs_table (users : list newV2board.aips)
    (old : gmap Z (list string)) :
  (users = [] →
     newV2board.storeAliveIPs users old = (old, Some "users is null"))
  ∧ (users ≠ [] →
     (newV2board.storeAliveIPs users old).2 = None
     ∧ (∀ uid, uid ∉ newV2board.Id <$> users →
          GetUserAliveIPs (newV2board.storeAliveIPs users old).1 uid = [])
     ∧ (NoDup (newV2board.Id <$> users) →
        ∀ u ip, u ∈ users →
          GetUserAliveIPs (newV2board.storeAliveIPs users old).1
            (newV2board.Id u) = newV2board.AliveIPs u
          ∧ (ipAllowed ip
               (GetUserAliveIPs (newV2board.storeAliveIPs users old).1
                  (newV2board.Id u)) = 0
             ↔ newV2board.AliveIPs u = []))).
Proof.
  split; [by intros ->|]. intros Hne.
  unfold newV2board.storeAliveIPs.
  destruct (Z.eqb_spec (len users) 0) as [Hz|_];
    [by apply len_zero in Hz|]. simpl.
  split; [done|]. split.
  - intros uid Hout. unfold GetUserAliveIPs. by rewrite aliveTable_other.
  - intros Hnd u ip Hin.
    assert (Hlist : GetUserAliveIPs (foldl newV2board.storeAlive ∅ users)
                      (newV2board.Id u) = newV2board.AliveIPs u).
    { unfold GetUserAliveIPs. rewrite aliveTable_listed, lookup_empty by done.
      simpl.
      destruct (Z.ltb_spec 0 (len (newV2board.AliveIPs u))); [done|].
      symmetry. apply len_zero. pose proof (len_nonneg (newV2board.AliveIPs u)).
      lia. }
    rewrite Hlist. split; [done|]. symmetry. apply ipAllowed_no_list.
Qed.

Lemma groupOnline_snoc l u :
  newV2board.groupOnline (l ++ [u])%list
  = (<[api.OnlineUID u :=
         (default [] ((newV2board.groupOnline l).1 !! api.OnlineUID u)
          ++ [api.IP u])%list]> (newV2board.groupOnline l).1,
     if decide (api.IP u ≠ "")
     then <[api.OnlineUID u :=
              at0 (newV2board.groupOnline l).2 (api.OnlineUID u) + 1]>
            (newV2board.groupOnline l).2
     else (newV2board.groupOnline l).2).
Proof. unfold newV2board.groupOnline. by rewrite foldl_app. Qed.

Lemma ipsOf_snoc uid l u :
  ipsOf uid (l ++ [u])%list
  = (ipsOf uid l ++ if decide (api.OnlineUID u = uid) then [api.IP u] else [])%list.
Proof.
  unfold ipsOf. rewrite filter_app, fmap_app. f_equal.
  rewrite filter_cons, filter_nil. by case_decide.
Qed.

(** [ReportNodeOnlineUsers] sends for every UID the IPs of its entries in
    order, the empty ones included, and no UID without entry; the count it
    keeps as [LastReportOnline] is the number of non-empty IPs of the UID,
    and a UID whose IPs are all empty has no count. *)
Theorem groupOnline_counts (onlineUserList : list api.OnlineUser) (uid : Z) :
  default [] ((newV2board.groupOnline onlineUserList).1 !! uid)
  = ipsOf uid onlineUserList
  ∧ ((newV2board.groupOnline onlineUserList).1 !! uid = None
     ↔ ipsOf uid onlineUserList = [])
  ∧ at0 (newV2board.groupOnline onlineUserList).2 uid
    = len (filter (fun ip => ip ≠ "") (ipsOf uid onlineUserList))
  ∧ ((newV2board.groupOnline onlineUserList).2 !! uid = None
     ↔ filter (fun ip => ip ≠ "") (ipsOf uid onlineUserList) = []).
Proof.
  induction onlineUserList as [|u l IH] using rev_ind.
  - unfold newV2board.groupOnline, ipsOf, at0. simpl.
    rewrite !lookup_empty. by repeat split.
  - destruct IH as (Hd & Hdn & Hc & Hcn).
    rewrite groupOnline_snoc, ipsOf_snoc. simpl.
    destruct (decide (api.OnlineUID u = uid)) as [Heq|Hne].
    + subst uid. rewrite lookup_insert_eq. simpl. rewrite Hd.
      split; [done|]. split.
      { split; [done|]. intros H. by apply app_eq_nil in H as [_ ?]. }
      rewrite filter_app, filter_cons, filter_nil.
      destruct (decide (api.IP u ≠ "")) as [Hip|Hip]; simpl.
      * unfold at0 at 1. rewrite lookup_insert_eq. simpl. rewrite Hc.
        split; [unfold len; rewrite length_app; simpl; lia|].
        split; [done|]. intros H. by apply app_eq_nil in H as [_ ?].
      * rewrite app_nil_r. done.
    + rewrite lookup_insert_ne by done. rewrite app_nil_r.
      split; [done|]. split; [done|].
      destruct (decide (api.IP u ≠ "")); simpl; [|done].
      unfold at0 at 1. rewrite lookup_insert_ne by done. done.
Qed.

Lemma trafficData_snoc l t :
  newV2board.trafficData (l ++ [t])%list
  = <[newV2board.TrafficUID t :=
        [newV2board.Upload t; newV2board.Download t]]>
      (newV2board.trafficData l).
Proof. unfold newV2board.trafficData. by rewrite foldl_app. Qed.

(** [ReportUserTraffic] sends one pair per UID: when a UID occurs several
    times in the list, the pair of its last entry is sent and the earlier
    ones are dropped, not added up. *)
Theorem trafficData_last_wins (userTraffic : list newV2board.UserTraffic)
    (uid : Z) :
  newV2board.trafficData userTraffic !! uid
  = (fun t => [newV2board.Upload t; newV2board.Download t])
      <$> last (filter (fun t => newV2board.TrafficUID t = uid) userTraffic).
Proof.
  induction userTraffic as [|t l IH] using rev_ind; [done|].
  rewrite trafficData_snoc, filter_app, filter_cons, filter_nil.
  destruct (decide (newV2board.TrafficUID t = uid)) as [<-|Hne].
  - by rewrite lookup_insert_eq, last_snoc.
  - by rewrite lookup_insert_ne, app_nil_r.
Qed.

(** The path of the HTTP obfuscation header always starts with a slash: a
    configured path that does is kept, any other gets one in front, and an
    empty one becomes the root; applying the rule twice changes nothing. *)
Theorem obfsPath_rooted (p : string) :
  String.prefix "/" (newV2board.obfsPath p) = true
  ∧ (String.prefix "/" p = true → newV2board.obfsPath p = p)
  ∧ (String.prefix "/" p = false → newV2board.obfsPath p = "/" ++ p)
  ∧ newV2board.obfsPath (newV2board.obfsPath p) = newV2board.obfsPath p.
Proof.
  assert (Hroot : ∀ q, String.prefix "/" q = true → newV2board.obfsPath q = q).
  { intros q Hq. unfold newV2board.obfsPath. rewrite Hq.
    case_decide as Hne; [done|]. by subst q. }
  assert (Hstart : String.prefix "/" (newV2board.obfsPath p) = true).
  { unfold newV2board.obfsPath. case_decide; [|done].
    destruct (String.prefix "/" p) eqn:Hp; [done|]. apply (prefix_app "/" p). }
  split; [done|]. split; [apply Hroot|]. split; [|by apply Hroot].
  intros Hp. unfold newV2board.obfsPath. rewrite Hp.
  case_decide as Hne; [done|]. by subst p.
Qed.
